(** * A shallow embedding of the real-time alert core of [server.js]

    The WebSocket session registry ([wsClients]), the pending-alert store
    ([pendingAlerts]), [wsSendSafe], [sendToAide], the retry timer, the
    connection handshake with its message and close handlers, the patient
    cache ([fetchAllPatients], [getAideForPatient]) and the MQTT topic
    router.  JS values are modelled by [JVal]; JS [Map]s and [Set]s, whose
    iteration order is insertion order, by association lists. *)

From Stdlib Require Import String Ascii List ZArith Bool Lia.
Import ListNotations.

Local Open Scope string_scope.
#[local] Set Warnings "-register-all".

(** ** JavaScript values *)

(** Values produced by [JSON.parse] and object literals.  Numbers are
    modelled by their integer values only. *)
Inductive JVal : Type :=
| JNull
| JBool (b : bool)
| JNum (n : Z)
| JStr (s : string)
| JArr (l : list JVal)
| JObj (fs : list (string * JVal)).

(** JS truthiness ([!v] is [negb (js_truthy v)]). *)
Definition js_truthy (v : JVal) : bool :=
  match v with
  | JNull => false
  | JBool b => b
  | JNum n => negb (Z.eqb n 0)
  | JStr s => negb (String.eqb s "")
  | JArr _ | JObj _ => true
  end.

(** Property read [v.k] on a value that is not [null]: [None] is
    [undefined].  Strings, numbers and arrays carry none of the property
    names read by the server ([type], [alertId], [mot_de_passe],
    [id_patient], [fk_aide_soignant], ...). *)
Fixpoint obj_get (fs : list (string * JVal)) (k : string) : option JVal :=
  match fs with
  | [] => None
  | (k', v) :: r => if String.eqb k k' then Some v else obj_get r k
  end.

Definition get_prop (v : JVal) (k : string) : option JVal :=
  match v with
  | JObj fs => obj_get fs k
  | _ => None
  end.

(** Truthiness of a property read, [undefined] being falsy. *)
Definition opt_truthy (o : option JVal) : bool :=
  match o with Some v => js_truthy v | None => false end.

(** Object property assignment [o[k] = v]: an existing key keeps its place. *)
Fixpoint obj_set (fs : list (string * JVal)) (k : string) (v : JVal)
  : list (string * JVal) :=
  match fs with
  | [] => [(k, v)]
  | (k', v') :: r => if String.eqb k k' then (k, v) :: r else (k', v') :: obj_set r k v
  end.

(** Decimal rendering of an integer, as [String(n)] does. *)
Fixpoint pos_digits (fuel : nat) (p : positive) (acc : string) : string :=
  match fuel with
  | O => acc
  | S f =>
      let q := Z.div (Zpos p) 10 in
      let d := Z.modulo (Zpos p) 10 in
      let acc' := String (Ascii.ascii_of_nat (48 + Z.to_nat d)) acc in
      match q with
      | Zpos q' => pos_digits f q' acc'
      | _ => acc'
      end
  end.

Definition z_to_dec (n : Z) : string :=
  match n with
  | Z0 => "0"
  | Zpos p => pos_digits (Pos.size_nat p) p ""
  | Zneg p => "-" ++ pos_digits (Pos.size_nat p) p ""
  end.

(** [String(v)]; [None] is [undefined].  Arrays render as the
    comma-joined rendering of their elements, [null] elements as "". *)
Fixpoint js_String_v (v : JVal) : string :=
  match v with
  | JNull => "null"
  | JBool true => "true"
  | JBool false => "false"
  | JNum n => z_to_dec n
  | JStr s => s
  | JArr l =>
      (fix join (l : list JVal) : string :=
         match l with
         | [] => ""
         | [x] => match x with JNull => "" | _ => js_String_v x end
         | x :: r => match x with JNull => "" | _ => js_String_v x end ++ "," ++ join r
         end) l
  | JObj _ => "[object Object]"
  end.

Definition js_String (o : option JVal) : string :=
  match o with Some v => js_String_v v | None => "undefined" end.

(** ** Keys of the server's [Map]s

    [Map] compares keys by SameValueZero: the string ["5"] and the number
    [5] are different keys.  Keys come from URL query parameters (strings),
    from [fk_aide_soignant] of the patient records and from request
    bodies. *)
Inductive Key : Type :=
| KStr (s : string)
| KNum (n : Z)
| KBool (b : bool)
| KNull.

Definition Key_eq_dec (a b : Key) : {a = b} + {a <> b}.
Proof. decide equality; first [apply string_dec | apply Z.eq_dec | apply bool_dec]. Defined.

Definition key_eqb (a b : Key) : bool := if Key_eq_dec a b then true else false.

(** The key a primitive JS value denotes ([None] for objects and arrays,
    which never reach the maps in the paths modelled here). *)
Definition key_of (v : JVal) : option Key :=
  match v with
  | JStr s => Some (KStr s)
  | JNum n => Some (KNum n)
  | JBool b => Some (KBool b)
  | JNull => Some KNull
  | _ => None
  end.

(** ** Ordered JS [Map] and [Set] *)

Section JsMap.
Context {K V : Type} (eqb : K -> K -> bool).

Fixpoint m_get (m : list (K * V)) (k : K) : option V :=
  match m with
  | [] => None
  | (k', v) :: r => if eqb k k' then Some v else m_get r k
  end.

Definition m_has (m : list (K * V)) (k : K) : bool :=
  match m_get m k with Some _ => true | None => false end.

(** [Map.prototype.set]: a present key keeps its position. *)
Fixpoint m_set (m : list (K * V)) (k : K) (v : V) : list (K * V) :=
  match m with
  | [] => [(k, v)]
  | (k', v') :: r => if eqb k k' then (k, v) :: r else (k', v') :: m_set r k v
  end.

(** [Map.prototype.delete]: a map built by [m_set] holds a key at most
    once, so removing every entry with that key removes the entry. *)
Definition m_delete (m : list (K * V)) (k : K) : list (K * V) :=
  filter (fun kv => negb (eqb k (fst kv))) m.

(** [Map.prototype.values], in insertion order. *)
Definition m_values (m : list (K * V)) : list V := map snd m.
End JsMap.

(** Sockets are identified by numbers; a JS [Set] of sockets is a list
    without repetition, in insertion order. *)
Definition Sock := nat.

Definition set_add (s : list Sock) (x : Sock) : list Sock :=
  if existsb (Nat.eqb x) s then s else s ++ [x].

Definition set_delete (s : list Sock) (x : Sock) : list Sock :=
  filter (fun y => negb (Nat.eqb x y)) s.

(** ** Server state *)

(** An alert payload: the JS object [{ ...data, alertId, timestamp }]. *)
Definition Payload := list (string * JVal).

(** A queue of [pendingAlerts]: alertId -> payload. *)
Definition Queue := list (string * Payload).

Record St : Type := mkSt {
  wsClients : list (Key * list Sock);      (** aideId -> Set of sockets *)
  pendingAlerts : list (Key * Queue);      (** aideId -> Map alertId -> payload *)
  opened : list Sock;                      (** sockets with [readyState === 1] *)
  broken : list Sock;                      (** sockets whose [send] throws *)
  conns : list Sock;                       (** every socket that ever connected *)
  owners : list (Sock * Key);              (** message/close handlers attached, with the captured aideId *)
  sent : list (Sock * JVal);               (** every object handed to [ws.send], in order *)
  patientsCache : JVal;                    (** [let patientsCache = null] *)
  patientsCacheTs : Z                      (** [let patientsCacheTs = 0] *)
}.

Definition init : St := mkSt [] [] [] [] [] [] [] JNull 0.

Definition set_wsClients (st : St) c : St :=
  mkSt c st.(pendingAlerts) st.(opened) st.(broken) st.(conns) st.(owners)
       st.(sent) st.(patientsCache) st.(patientsCacheTs).
Definition set_pending (st : St) p : St :=
  mkSt st.(wsClients) p st.(opened) st.(broken) st.(conns) st.(owners)
       st.(sent) st.(patientsCache) st.(patientsCacheTs).
Definition set_opened (st : St) o : St :=
  mkSt st.(wsClients) st.(pendingAlerts) o st.(broken) st.(conns) st.(owners)
       st.(sent) st.(patientsCache) st.(patientsCacheTs).
Definition set_broken (st : St) b : St :=
  mkSt st.(wsClients) st.(pendingAlerts) st.(opened) b st.(conns) st.(owners)
       st.(sent) st.(patientsCache) st.(patientsCacheTs).
Definition set_conns (st : St) c : St :=
  mkSt st.(wsClients) st.(pendingAlerts) st.(opened) st.(broken) c st.(owners)
       st.(sent) st.(patientsCache) st.(patientsCacheTs).
Definition set_owners (st : St) o : St :=
  mkSt st.(wsClients) st.(pendingAlerts) st.(opened) st.(broken) st.(conns) o
       st.(sent) st.(patientsCache) st.(patientsCacheTs).
Definition set_sent (st : St) s : St :=
  mkSt st.(wsClients) st.(pendingAlerts) st.(opened) st.(broken) st.(conns)
       st.(owners) s st.(patientsCache) st.(patientsCacheTs).
Definition set_cache (st : St) c ts : St :=
  mkSt st.(wsClients) st.(pendingAlerts) st.(opened) st.(broken) st.(conns)
       st.(owners) st.(sent) c ts.

Definition is_open (st : St) (ws : Sock) : bool := existsb (Nat.eqb ws) st.(opened).
Definition is_broken (st : St) (ws : Sock) : bool := existsb (Nat.eqb ws) st.(broken).

(** The aideId captured by the handlers attached to [ws], if any. *)
Definition owner (st : St) (ws : Sock) : option Key := m_get Nat.eqb st.(owners) ws.

Definition clients_of (st : St) (k : Key) : option (list Sock) := m_get key_eqb st.(wsClients) k.
Definition queue_of (st : St) (k : Key) : option Queue := m_get key_eqb st.(pendingAlerts) k.

(** [ws.close()]: the socket leaves the OPEN state. *)
Definition ws_close (st : St) (ws : Sock) : St :=
  set_opened st (filter (fun y => negb (Nat.eqb ws y)) st.(opened)).

(** ** [wsSendSafe]

<<
function wsSendSafe(ws, obj) {
  try {
    if (ws.readyState === 1) ws.send(JSON.stringify(obj));
  } catch (err) {
    console.warn("wsSendSafe error:", err);
  }
}
>>  *)
Definition wsSendSafe (st : St) (ws : Sock) (obj : JVal) : St :=
  if is_open st ws then
    if is_broken st ws then st (* the exception of [ws.send] is caught *)
    else set_sent st (st.(sent) ++ [(ws, obj)])
  else st.

(** Sending every payload of a queue to one socket, in insertion order. *)
Definition send_all (st : St) (ws : Sock) (ps : list Payload) : St :=
  fold_left (fun s p => wsSendSafe s ws (JObj p)) ps st.

(** [clients.forEach((ws) => wsSendSafe(ws, payload))]. *)
Definition broadcast (st : St) (cs : list Sock) (payload : Payload) : St :=
  fold_left (fun s ws => wsSendSafe s ws (JObj payload)) cs st.

(** ** [sendToAide]

    [alertId] and [timestamp] are the values of [crypto.randomUUID()] and
    [new Date().toISOString()] for this call.  Returns the new state and
    the returned boolean. *)
Definition mk_payload (data : Payload) (alertId timestamp : string) : Payload :=
  obj_set (obj_set data "alertId" (JStr alertId)) "timestamp" (JStr timestamp).

Definition sendToAide (st : St) (aideId : Key) (data : Payload)
    (alertId timestamp : string) : St * bool :=
  let st1 :=
    if m_has key_eqb st.(pendingAlerts) aideId then st
    else set_pending st (m_set key_eqb st.(pendingAlerts) aideId []) in
  let clients := clients_of st1 aideId in
  let payload := mk_payload data alertId timestamp in
  let q := match queue_of st1 aideId with Some q => q | None => [] end in
  let st2 := set_pending st1
               (m_set key_eqb st1.(pendingAlerts) aideId (m_set String.eqb q alertId payload)) in
  match clients with
  | None => (st2, false)
  | Some cs =>
      if Nat.eqb (length cs) 0 then (st2, false)
      else (broadcast st2 cs payload, true)
  end.

(** ** The connection handshake ([wss.on("connection", ...)])

    [API_KEY] and [API_BASE] are the configuration read from the
    environment ("" when unset). *)
Record Config : Type := mkConfig { API_KEY : string; API_BASE : string }.

(** Outcome of the credential lookup
    [fetch(`${API_BASE}/aidesoignants/password/${aideId}`)] followed by
    [response.json()]. *)
Inductive Lookup : Type :=
| LThrows                    (** [fetch] rejects *)
| LNotOk (status : Z)        (** [!response.ok] *)
| LOk (body : option JVal).  (** [response.json()]: [None] when it rejects *)

Definition err (e : string) : JVal := JObj [("error", JStr e)].

(** [wsSendSafe(ws, e); ws.close(); return;] *)
Definition reject (st : St) (ws : Sock) (e : JVal) : St := ws_close (wsSendSafe st ws e) ws.

(** [!param] for [url.searchParams.get(...)], which is [null] or a string. *)
Definition falsy_param (o : option string) : bool :=
  match o with None => true | Some s => String.eqb s "" end.

Definition opt_str (o : option string) : JVal :=
  match o with None => JNull | Some s => JStr s end.

Definition prop_is_str (v : JVal) (k s : string) : bool :=
  match get_prop v k with Some (JStr s') => String.eqb s' s | _ => false end.

(** The successful branch: register, create the queue, flush it, attach
    the message and close handlers (which capture [aideId]). *)
Definition accept (st : St) (ws : Sock) (k : Key) : St :=
  let st1 := if m_has key_eqb st.(wsClients) k then st
             else set_wsClients st (m_set key_eqb st.(wsClients) k []) in
  let set := match clients_of st1 k with Some s => s | None => [] end in
  let st2 := set_wsClients st1 (m_set key_eqb st1.(wsClients) k (set_add set ws)) in
  let st3 := if m_has key_eqb st2.(pendingAlerts) k then st2
             else set_pending st2 (m_set key_eqb st2.(pendingAlerts) k []) in
  let queue := match queue_of st3 k with Some q => q | None => [] end in
  let st4 := send_all st3 ws (m_values queue) in
  set_owners st4 (st4.(owners) ++ [(ws, k)]).

(** The [catch] block: [wsSendSafe(ws, {error: "Internal server error."})]
    then [ws.close()]. *)
Definition internal_error (st : St) (ws : Sock) : St :=
  reject st ws (err "Internal server error.").

Definition connection (cfg : Config) (st : St) (ws : Sock) (url : string)
    (token aideId password : option string) (lk : Lookup) : St :=
  if falsy_param aideId then reject st ws (err "Missing 'id' query param")
  else if falsy_param password then reject st ws (err "Missing 'pwd' query param")
  else if negb (String.eqb cfg.(API_KEY) "") &&
          negb (match token with Some t => String.eqb t cfg.(API_KEY) | None => false end)
  then reject st ws
         (JObj [("error", JStr "Invalid token");
                ("debug", JObj [("token_recu", opt_str token);
                                ("api_key_attendue", JStr cfg.(API_KEY));
                                ("url", JStr url)])])
  else
    match lk with
    | LThrows => internal_error st ws
    | LNotOk _ => reject st ws (err "Authentication failed due to API error")
    | LOk None => internal_error st ws
    | LOk (Some JNull) => internal_error st ws   (* [aideData.mot_de_passe] on [null] *)
    | LOk (Some aideData) =>
        match get_prop aideData "mot_de_passe", aideId, password with
        | Some (JStr m), Some id, Some p =>
            if String.eqb m p then accept st ws (KStr id)
            else reject st ws (err "Invalid password")
        | _, _, _ => reject st ws (err "Invalid password")
        end
    end.

(** ** The handlers attached to an authenticated socket *)

(** [ws.on("message", ...)]; [raw] is the result of
    [JSON.parse(msgBuf.toString())], [None] when it throws (the handler
    then returns). *)
Definition on_message (st : St) (ws : Sock) (raw : option JVal) : St :=
  match owner st ws, raw with
  | Some k, Some data =>
      if js_truthy data && prop_is_str data "type" "ack" && opt_truthy (get_prop data "alertId")
      then
        match queue_of st k, get_prop data "alertId" with
        | Some q, Some (JStr id) =>
            if m_has String.eqb q id
            then set_pending st (m_set key_eqb st.(pendingAlerts) k (m_delete String.eqb q id))
            else st
        | _, _ => st
        end
      else if js_truthy data && prop_is_str data "type" "resend_pending" then
        match queue_of st k with
        | Some q => send_all st ws (m_values q)
        | None => st
        end
      else st
  | _, _ => st
  end.

(** [ws.on("close", ...)]. *)
Definition on_close (st : St) (ws : Sock) : St :=
  match owner st ws with
  | Some k =>
      match clients_of st k with
      | Some set =>
          let set' := set_delete set ws in
          if Nat.eqb (length set') 0
          then set_wsClients st (m_delete key_eqb st.(wsClients) k)
          else set_wsClients st (m_set key_eqb st.(wsClients) k set')
      | None => st
      end
  | None => st
  end.

(** ** The retry timer: one tick of [setInterval(..., RETRY_INTERVAL_MS)] *)
Definition retry_entry (st : St) (e : Key * list Sock) : St :=
  let (k, clientSet) := e in
  match queue_of st k with
  | None => st
  | Some queue =>
      if Nat.eqb (length queue) 0 then st
      else fold_left (fun s p => broadcast s clientSet p) (m_values queue) st
  end.

Definition retryTick (st : St) : St := fold_left retry_entry st.(wsClients) st.

(** ** Events of the core and their effect *)
Inductive Event : Type :=
| EConnect (ws : Sock) (url : string) (token aideId pwd : option string) (lk : Lookup)
| EMessage (ws : Sock) (raw : option JVal)
| EClose (ws : Sock)
| ETick
| EDispatch (aideId : Key) (data : Payload) (alertId timestamp : string)
| ESendFails (ws : Sock).

Definition step (cfg : Config) (st : St) (ev : Event) : St :=
  match ev with
  | EConnect ws url token aideId pwd lk =>
      if existsb (Nat.eqb ws) st.(conns) then st   (* every connection is a new socket *)
      else connection cfg
             (set_opened (set_conns st (st.(conns) ++ [ws])) (st.(opened) ++ [ws]))
             ws url token aideId pwd lk
  | EMessage ws raw => on_message st ws raw
  | EClose ws => on_close (ws_close st ws) ws
  | ETick => retryTick st
  | EDispatch k data id ts => fst (sendToAide st k data id ts)
  | ESendFails ws => set_broken st (st.(broken) ++ [ws])
  end.

Definition run (cfg : Config) (st : St) (evs : list Event) : St := fold_left (step cfg) evs st.

(** ** The patient cache *)

Definition PATIENTS_CACHE_TTL_MS : Z := 30000.

(** Outcome of [fetch(`${API_BASE}/patients`)] then [res.json()]:
    [PFThrows] when [fetch] rejects; [PFJson body t] when it resolves,
    [body] being the result of [res.json()] ([None] when it rejects) and
    [t] the value of [Date.now()] once both have resolved. *)
Inductive PFetch : Type :=
| PFThrows
| PFJson (body : option JVal) (t : Z).

(** [fetchAllPatients()] at time [now]: the returned value and the new
    state (only [patientsCache] and [patientsCacheTs] change). *)
Definition fetchAllPatients (cfg : Config) (st : St) (now : Z) (f : PFetch) : JVal * St :=
  if js_truthy st.(patientsCache) && Z.ltb (now - st.(patientsCacheTs)) PATIENTS_CACHE_TTL_MS
  then (st.(patientsCache), st)
  else if String.eqb cfg.(API_BASE) "" then (JArr [], st)
  else
    match f with
    | PFThrows => (JArr [], st)                      (* catch: return [] *)
    | PFJson None _ => (JArr [], st)                 (* catch: return [] *)
    | PFJson (Some data) t => (data, set_cache st data t)
    end.

(** [patients.find((x) => String(x.id_patient) === String(patientId))]:
    [None] when the callback throws (an element [null]), [Some None] when
    nothing is found. *)
Fixpoint find_patient (l : list JVal) (patientId : string) : option (option JVal) :=
  match l with
  | [] => Some None
  | JNull :: _ => None
  | x :: r =>
      if String.eqb (js_String (get_prop x "id_patient")) patientId then Some (Some x)
      else find_patient r patientId
  end.

(** [getAideForPatient(patientId)]: [None] is [null]. *)
Definition getAideForPatient (cfg : Config) (st : St) (now : Z) (f : PFetch)
    (patientId : string) : option JVal * St :=
  let (patients, st1) := fetchAllPatients cfg st now f in
  match patients with
  | JArr l =>
      match find_patient l patientId with
      | Some (Some p) =>
          match get_prop p "fk_aide_soignant" with
          | Some v => if js_truthy v then (Some v, st1) else (None, st1)
          | None => (None, st1)
          end
      | _ => (None, st1)          (* not found, or the catch block *)
      end
  | _ => (None, st1)              (* !Array.isArray(patients) *)
  end.

(** ** The MQTT topic router ([mqttClient.on("message", ...)]) *)

(** [topic.split("/")]. *)
Fixpoint split_slash_aux (s cur : string) : list string :=
  match s with
  | EmptyString => [cur]
  | String c r =>
      if Ascii.eqb c "/"%char then cur :: split_slash_aux r ""
      else split_slash_aux r (cur ++ String c "")
  end.

Definition split_slash (s : string) : list string := split_slash_aux s "".

(** How the handler's promise settles: normally, or rejected by an
    exception no [try] catches (an unhandled rejection). *)
Inductive Outcome : Type :=
| Done (st : St)
| Uncaught (error : string) (st : St).

(** The whitespace [JSON.parse] skips, and the characters a JSON text may
    start with. *)
Definition json_ws (c : Ascii.ascii) : bool :=
  existsb (Ascii.eqb c) [" "%char; "009"%char; "010"%char; "013"%char].

Definition json_start (c : Ascii.ascii) : bool :=
  existsb (Ascii.eqb c)
    (["{"%char; "["%char; "034"%char; "-"%char] ++ list_ascii_of_string "0123456789tfn").

Fixpoint json_bad_start (s : string) : bool :=
  match s with
  | EmptyString => true
  | String c r => if json_ws c then json_bad_start r else negb (json_start c)
  end.

(** A model of [JSON.parse] agrees with ECMA-262 at least in throwing on a
    text that cannot start a JSON value. *)
Definition JSON_parse_conforms (parse : string -> option JVal) : Prop :=
  forall s, json_bad_start s = true -> parse s = None.

(** The handler for one message: [now] and [f] are the clock and the
    directory fetch seen by [getAideForPatient], [parse] is [JSON.parse]
    ([None] when it throws), [alertId] and [timestamp] the values
    [sendToAide] draws.  A [fk_aide_soignant] that is an object or an array
    (never a [Map] key the handshake can produce) dispatches nothing here. *)
Definition mqtt_message (cfg : Config) (st : St) (topic message : string)
    (now : Z) (f : PFetch) (parse : string -> option JVal)
    (alertId timestamp : string) : Outcome :=
  let parts := filter (fun p => negb (String.eqb p "")) (split_slash topic) in
  match parts with
  | p0 :: p1 :: patientId :: ((_ :: _) as rest) =>
      if String.eqb p0 "alert" && String.eqb p1 "box" then
        let alertType := String.concat "/" rest in
        let (aideId, st1) := getAideForPatient cfg st now f patientId in
        let payload ty : Payload :=
          [("type", JStr ty); ("patientId", JStr patientId); ("alertType", JStr alertType);
           ("message", JStr message); ("topic", JStr topic)] in
        let dispatch ty :=
          match aideId with
          | Some v =>
              match key_of v with
              | Some k => Done (fst (sendToAide st1 k (payload ty) alertId timestamp))
              | None => Done st1
              end
          | None => Done st1            (* "No aide-soignant found" *)
          end in
        if String.eqb alertType "mecanic" then Done st1
        else if String.eqb alertType "seuilmedoc" then dispatch "warning"
        else if String.eqb alertType "plusmedoc" then dispatch "critical"
        else if String.eqb alertType "delivery" then
          (* [const data = JSON.parse(message);] then [data.heure_distrib],
             outside any [try]; the POST that follows is inside one *)
          match parse message with
          | None => Uncaught "SyntaxError" st1
          | Some JNull => Uncaught "TypeError" st1
          | Some _ => Done st1
          end
        else if String.eqb alertType "getprescription" then dispatch "request"
        else if String.eqb alertType "getmedocs" then dispatch "request"
        else if String.eqb alertType "createclient" then dispatch "request"
        else Done st1
      else Done st
  | _ => Done st
  end.

(** ** The REST layer *)

(** A response: [res.status(code).json(body)]; [res.json(body)] alone is
    code 200. *)
Record Resp : Type := mkResp { code : Z; rbody : JVal }.

(** [x || d] on a property read, [None] being [undefined]. *)
Definition js_or (o : option JVal) (d : JVal) : JVal :=
  match o with Some v => if js_truthy v then v else d | None => d end.

(** The object literal [{ k1, k2, ... }] as [JSON.stringify] writes it:
    properties whose value is [undefined] are left out. *)
Fixpoint obj_defined (l : list (string * option JVal)) : list (string * JVal) :=
  match l with
  | [] => []
  | (k, Some v) :: r => (k, v) :: obj_defined r
  | (k, None) :: r => obj_defined r
  end.

(** [apiKeyMiddleware]: [None] is [next()].  [key] is
    [req.headers["api_key"]], a string or [undefined]. *)
Definition apiKeyMiddleware (cfg : Config) (key : option string) : option Resp :=
  if String.eqb cfg.(API_KEY) "" then None
  else if falsy_param key ||
          negb (match key with Some k => String.eqb k cfg.(API_KEY) | None => false end)
  then Some (mkResp 401 (err "Unauthorized: invalid API key"))
  else None.

(** [POST /api/send-alert], past the middleware.  [b] is [req.body] as
    [express.json()] parses it; [alertId] and [timestamp] are the values
    [sendToAide] draws.  [None]: an [aideId] that is an object or an array
    (a fresh [Map] key that nothing else can reach), which this model does
    not represent. *)
Definition send_alert (st : St) (b : JVal) (alertId timestamp : string) : option (Resp * St) :=
  let missing := mkResp 400 (err "aideId, patientId and alertType required") in
  match get_prop b "aideId", get_prop b "patientId", get_prop b "alertType" with
  | Some aideId, Some patientId, Some alertType =>
      if js_truthy aideId && js_truthy patientId && js_truthy alertType then
        let payload := [("type", JStr "box_alert"); ("patientId", patientId);
                        ("alertType", alertType);
                        ("message", js_or (get_prop b "message") (JStr "(manual)"))] in
        match key_of aideId with
        | Some k =>
            let (st', sent) := sendToAide st k payload alertId timestamp in
            Some (mkResp 200 (JObj [("sent", JBool sent)]), st')
        | None => None
        end
      else Some (missing, st)
  | _, _, _ => Some (missing, st)
  end.


(** [GET /api/patients/of/:aideId], past the middleware: the directory
    records whose [String(fk_aide_soignant)] is [aideId], reduced to three
    fields.  [(all || []).filter(...)] throws when the directory is not an
    array, or when an element is [null]; the [catch] answers 500. *)
Definition proj_patient (p : JVal) : JVal :=
  JObj (obj_defined [("id_patient", get_prop p "id_patient");
                     ("nomFamille", get_prop p "nomFamille");
                     ("prenom", get_prop p "prenom")]).

Definition is_null (v : JVal) : bool := match v with JNull => true | _ => false end.

Definition patients_of (cfg : Config) (st : St) (now : Z) (f : PFetch) (aideId : string)
    : Resp * St :=
  let (all, st1) := fetchAllPatients cfg st now f in
  match js_or (Some all) (JArr []) with
  | JArr l =>
      if existsb is_null l then (mkResp 500 (err "failed"), st1)
      else (mkResp 200 (JObj [("patients",
              JArr (map proj_patient
                      (filter (fun p => String.eqb (js_String (get_prop p "fk_aide_soignant")) aideId)
                              l)))]), st1)
  | _ => (mkResp 500 (err "failed"), st1)
  end.

(** [POST /api/auth/login].  Returns the response and the URL fetched, if
    any.  [lk] is the outcome of that fetch and of [response.json()];
    [msg] is the [message] of the exception the [catch] block reports. *)
Definition validRoles : list string := ["medecins"; "patients"; "aidesoignants"].

(** Strict equality [!==] negated.  Objects and arrays parsed from two
    different JSON texts are never the same object. *)
Definition js_strict_eq (a b : JVal) : bool :=
  match a, b with
  | JNull, JNull => true
  | JBool x, JBool y => Bool.eqb x y
  | JNum x, JNum y => Z.eqb x y
  | JStr x, JStr y => String.eqb x y
  | _, _ => false
  end.

Definition server_error (msg : string) : Resp :=
  mkResp 500 (JObj [("error", JStr "Erreur serveur"); ("message", JStr msg)]).

Definition not_found_user : Resp := mkResp 404 (err "Utilisateur non trouvé").

Definition login (cfg : Config) (b : JVal) (lk : Lookup) (msg : string) : Resp * option string :=
  let missing := mkResp 400 (JObj [("error", JStr "Paramètres manquants");
                                   ("required", JArr [JStr "id"; JStr "password"; JStr "role"])]) in
  let bad_role := mkResp 400 (JObj [("error", JStr "Rôle invalide");
                                    ("validRoles", JArr (map JStr validRoles))]) in
  match get_prop b "id", get_prop b "password", get_prop b "role" with
  | Some id, Some password, Some role =>
      if js_truthy id && js_truthy password && js_truthy role then
        match role with
        | JStr r =>
            if existsb (String.eqb r) validRoles then
              let apiUrl := cfg.(API_BASE) ++ "/" ++ r ++ "/" ++ js_String_v id in
              let resp :=
                match lk with
                | LThrows | LOk None => server_error msg
                | LNotOk _ => not_found_user
                | LOk (Some userData) =>
                    if negb (js_truthy userData) then not_found_user
                    else match get_prop userData "mot_de_passe" with
                         | Some m =>
                             if negb (js_truthy m) then not_found_user
                             else if negb (js_strict_eq m password)
                             then mkResp 401 (err "Mot de passe incorrect")
                             else mkResp 200 (JObj [("success", JBool true); ("user", userData);
                                                    ("role", role);
                                                    ("message", JStr "Authentification réussie")])
                         | None => not_found_user
                         end
                end in
              (resp, Some apiUrl)
            else (bad_role, None)
        | _ => (bad_role, None)
        end
      else (missing, None)
  | _, _, _ => (missing, None)
  end.

(** [encodeURIComponent], a string being read as the UTF-8 bytes of the JS
    string: every byte outside [A-Z a-z 0-9 - _ . ! ~ * ' ( )] becomes
    [%XY] in upper-case hexadecimal. *)
Definition uri_unreserved (c : ascii) : bool :=
  let n := nat_of_ascii c in
  (Nat.leb 65 n && Nat.leb n 90) || (Nat.leb 97 n && Nat.leb n 122) ||
  (Nat.leb 48 n && Nat.leb n 57) ||
  existsb (Ascii.eqb c) (list_ascii_of_string "-_.!~*'()").

Definition hex_digit (n : nat) : ascii := ascii_of_nat (if Nat.ltb n 10 then 48 + n else 55 + n)%nat.

Fixpoint encodeURIComponent (s : string) : string :=
  match s with
  | EmptyString => EmptyString
  | String c r =>
      if uri_unreserved c then String c (encodeURIComponent r)
      else String "%" (String (hex_digit (Nat.div (nat_of_ascii c) 16))
                        (String (hex_digit (Nat.modulo (nat_of_ascii c) 16)) (encodeURIComponent r)))
  end.

(** Outcome of a [fetch] whose response body is read once: [FThrows msg]
    when [fetch] rejects; otherwise the status, then [r.text()] and
    [r.json()], each a value or the [message] of its rejection. *)
Inductive Fetch : Type :=
| FThrows (msg : string)
| FResp (status : Z) (text : string + string) (json : JVal + string).

Definition res_ok (status : Z) : bool := (200 <=? status)%Z && (status <=? 299)%Z.

(** The common tail of the two prescription proxies. *)
Definition proxy_reply (f : Fetch) (wrap : JVal -> JVal) : Resp :=
  match f with
  | FThrows m => mkResp 500 (err m)
  | FResp status text json =>
      if res_ok status then
        match json with inl d => mkResp 200 (wrap d) | inr m => mkResp 500 (err m) end
      else
        match text with inl t => mkResp status (err t) | inr m => mkResp 500 (err m) end
  end.

(** [GET /api/prescriptions/:patientId], past the middleware: the
    response and the URL fetched, if any. *)
Definition get_prescriptions (cfg : Config) (pid : string) (f : Fetch) : Resp * option string :=
  if String.eqb cfg.(API_BASE) "" then (mkResp 500 (err "API_BASE_URL not configured"), None)
  else (proxy_reply f (fun d => d),
        Some (cfg.(API_BASE) ++ "/prescriptions/" ++ encodeURIComponent pid)).

(** [POST /api/prescriptions], past the middleware: the response and the
    request sent (URL and body), if any.  The route declares no
    [:patientId], so [req.params.patientId] is [undefined]. *)
Definition post_prescriptions (cfg : Config) (b : JVal) (f : Fetch) : Resp * option (string * JVal) :=
  let pid : option JVal := None in
  let nom_medoc := get_prop b "nom_medoc" in
  let quantite_totale := get_prop b "quantite_totale" in
  let quantite_restante := get_prop b "quantite_restante" in
  let compartiment := get_prop b "compartiment" in
  if negb (opt_truthy nom_medoc) || negb (opt_truthy quantite_totale) ||
     negb (opt_truthy quantite_restante) || negb (opt_truthy compartiment)
  then (mkResp 400 (err "Champs obligatoires manquants"), None)
  else if String.eqb cfg.(API_BASE) "" then (mkResp 500 (err "API_BASE_URL non configurée"), None)
  else
    let url := cfg.(API_BASE) ++ "/prescriptions/" ++ encodeURIComponent (js_String pid) in
    let body := JObj (obj_defined [("heure_distrib", get_prop b "heure_distrib");
                                   ("nom_medoc", nom_medoc);
                                   ("quantite_totale", quantite_totale);
                                   ("quantite_restante", quantite_restante);
                                   ("compartiment", compartiment)]) in
    (proxy_reply f (fun d => JObj [("success", JBool true); ("data", d)]), Some (url, body)).

(** ** [generateUniqueId]

<<
function generateUniqueId(role) {
  const prefix =
    role === "aidesoignants" ? "aso" : role === "medecins" ? "med" : "pat";
  const timestamp = Date.now().toString().slice(-6);
  const random = Math.floor(Math.random() * 1000);
  return `${prefix}${timestamp}${random}`;
}
>>

    [now] is [Date.now()] and [random] the value of
    [Math.floor(Math.random() * 1000)]. *)

(** [s.slice(-k)]: the last [k] characters, or all of [s] when it is
    shorter. *)
Definition js_slice_last (k : nat) (s : string) : string :=
  substring (String.length s - k) k s.

Definition generateUniqueId (role : string) (now random : Z) : string :=
  let prefix := if String.eqb role "aidesoignants" then "aso"
                else if String.eqb role "medecins" then "med" else "pat" in
  let timestamp := js_slice_last 6 (z_to_dec now) in
  prefix ++ timestamp ++ z_to_dec random.

(** ** Names used to state properties of the handlers *)

(** [topic.split("/").filter(Boolean)], the [parts] of the MQTT handler. *)
Definition topic_parts (topic : string) : list string :=
  filter (fun p => negb (String.eqb p "")) (split_slash topic).

(** The state a run of the MQTT handler leaves, however its promise
    settles. *)
Definition outcome_st (o : Outcome) : St := match o with Done s => s | Uncaught _ s => s end.

(** The alert types for which the MQTT handler calls [sendToAide], with
    the [type] of the payload it builds. *)
Definition dispatch_table : list (string * string) :=
  [("seuilmedoc", "warning"); ("plusmedoc", "critical"); ("getprescription", "request");
   ("getmedocs", "request"); ("createclient", "request")].


(** A directory record [patients.find] passes over when looking for
    [pid]: not [null], and with another [String(id_patient)]. *)
Definition skipped (pid : string) (x : JVal) : Prop :=
  x <> JNull /\ js_String (get_prop x "id_patient") <> pid.

(** * Properties *)

Local Open Scope list_scope.

(** ** Lemmas on the ordered maps *)

Lemma key_eqb_spec (a b : Key) : reflect (a = b) (key_eqb a b).
Proof. unfold key_eqb; destruct (Key_eq_dec a b); constructor; auto. Qed.

Section MapFacts.
Context {K V : Type} (eqb : K -> K -> bool)
        (eqb_spec : forall a b, reflect (a = b) (eqb a b)).

Lemma eqb_refl (k : K) : eqb k k = true.
Proof. destruct (eqb_spec k k); congruence. Qed.

Lemma eqb_neq (a b : K) : a <> b -> eqb a b = false.
Proof. intro H; destruct (eqb_spec a b); congruence. Qed.

Lemma m_get_set_eq (m : list (K * V)) k v : m_get eqb (m_set eqb m k v) k = Some v.
Proof.
  induction m as [|[k' v'] r IH]; simpl.
  - now rewrite eqb_refl.
  - destruct (eqb_spec k k'); simpl; [now rewrite eqb_refl|].
    rewrite (eqb_neq k k'); auto.
Qed.

Lemma m_get_set_neq (m : list (K * V)) k k' v :
  k' <> k -> m_get eqb (m_set eqb m k v) k' = m_get eqb m k'.
Proof.
  intro Hne; induction m as [|[k0 v0] r IH]; simpl.
  - now rewrite eqb_neq.
  - destruct (eqb_spec k k0) as [<-|]; simpl.
    + now rewrite !eqb_neq.
    + now rewrite IH.
Qed.

Lemma m_get_delete_eq (m : list (K * V)) k : m_get eqb (m_delete eqb m k) k = None.
Proof.
  induction m as [|[k' v'] r IH]; simpl; auto.
  destruct (eqb_spec k k') as [<-|]; simpl; auto.
  rewrite eqb_neq; auto.
Qed.

Lemma m_get_delete_neq (m : list (K * V)) k k' :
  k' <> k -> m_get eqb (m_delete eqb m k) k' = m_get eqb m k'.
Proof.
  intro Hne; induction m as [|[k0 v0] r IH]; simpl; auto.
  destruct (eqb_spec k k0) as [<-|]; simpl.
  - rewrite eqb_neq; auto.
  - destruct (eqb k' k0); auto.
Qed.

Lemma m_delete_idem (m : list (K * V)) k :
  m_delete eqb (m_delete eqb m k) k = m_delete eqb m k.
Proof.
  unfold m_delete; induction m as [|x r IH]; simpl; auto.
  destruct (negb (eqb k (fst x))) eqn:E; simpl; rewrite ?E; congruence.
Qed.

Lemma m_get_In (m : list (K * V)) k v : m_get eqb m k = Some v -> In (k, v) m.
Proof.
  induction m as [|[k' v'] r IH]; simpl; [discriminate|].
  destruct (eqb_spec k k') as [<-|]; [injection 1 as <-; auto | auto].
Qed.

Lemma m_get_values (m : list (K * V)) k v : m_get eqb m k = Some v -> In v (m_values m).
Proof.
  intro H; apply m_get_In in H; unfold m_values.
  now apply (in_map snd) in H.
Qed.

Lemma In_m_set (m : list (K * V)) k v x :
  In x (m_set eqb m k v) -> x = (k, v) \/ In x m.
Proof.
  induction m as [|[k' v'] r IH]; simpl.
  - intuition.
  - destruct (eqb k k'); simpl; intuition.
Qed.

Lemma In_values_set (m : list (K * V)) k v w :
  In w (m_values (m_set eqb m k v)) -> w = v \/ In w (m_values m).
Proof.
  unfold m_values; intro H; apply in_map_iff in H as [[k1 v1] [<- H]].
  apply In_m_set in H as [H|H]; [injection H as -> ->; auto|].
  right; now apply (in_map snd) in H.
Qed.

Lemma In_m_delete (m : list (K * V)) k x : In x (m_delete eqb m k) -> In x m.
Proof. unfold m_delete; intro H; now apply filter_In in H. Qed.

Lemma In_values_delete (m : list (K * V)) k w :
  In w (m_values (m_delete eqb m k)) -> In w (m_values m).
Proof.
  unfold m_values; intro H; apply in_map_iff in H as [x [<- H]].
  apply in_map; now apply In_m_delete in H.
Qed.

Lemma m_has_set (m : list (K * V)) k k' v :
  m_has eqb m k' = true -> m_has eqb (m_set eqb m k v) k' = true.
Proof.
  unfold m_has; destruct (eqb_spec k' k) as [->|Hne].
  - now rewrite m_get_set_eq.
  - now rewrite m_get_set_neq.
Qed.

Lemma m_get_app (l1 l2 : list (K * V)) k :
  m_get eqb (l1 ++ l2) k =
  match m_get eqb l1 k with Some v => Some v | None => m_get eqb l2 k end.
Proof.
  induction l1 as [|[k' v'] r IH]; simpl; auto.
  destruct (eqb k k'); auto.
Qed.

Lemma m_get_not_in (m : list (K * V)) k :
  (forall v, ~ In (k, v) m) -> m_get eqb m k = None.
Proof.
  intro H; destruct (m_get eqb m k) eqn:E; auto.
  exfalso; apply (H v); now apply m_get_In.
Qed.
End MapFacts.

Lemma Nat_eqb_spec' (a b : nat) : reflect (a = b) (Nat.eqb a b).
Proof. apply Nat.eqb_spec. Qed.

Lemma String_eqb_spec' (a b : string) : reflect (a = b) (String.eqb a b).
Proof. apply String.eqb_spec. Qed.

Create HintDb maps.
#[local] Hint Resolve key_eqb_spec Nat_eqb_spec' String_eqb_spec' : maps.

(** ** Sends *)

(** What [wsSendSafe(ws, obj)] hands to [ws.send] in state [st]. *)
Definition sends (st : St) (ws : Sock) (obj : JVal) : list (Sock * JVal) :=
  if is_open st ws && negb (is_broken st ws) then [(ws, obj)] else [].

Lemma St_eta (st : St) : set_sent st st.(sent) = st.
Proof. now destruct st. Qed.

Lemma wsSendSafe_eq st ws obj :
  wsSendSafe st ws obj = set_sent st (st.(sent) ++ sends st ws obj).
Proof.
  unfold wsSendSafe, sends.
  destruct (is_open st ws), (is_broken st ws); simpl;
    rewrite ?app_nil_r, ?St_eta; reflexivity.
Qed.

Lemma set_sent_twice st a b : set_sent (set_sent st a) b = set_sent st b.
Proof. reflexivity. Qed.

Lemma sends_set_sent st a ws obj : sends (set_sent st a) ws obj = sends st ws obj.
Proof. reflexivity. Qed.

(** Folding [wsSendSafe] only appends to the log; the sockets' state is
    read from the state the fold starts in. *)
Lemma fold_send_eq {A} (f : A -> Sock) (g : A -> JVal) (l : list A) st :
  fold_left (fun s a => wsSendSafe s (f a) (g a)) l st =
  set_sent st (st.(sent) ++ flat_map (fun a => sends st (f a) (g a)) l).
Proof.
  revert st; induction l as [|a r IH]; intro st; simpl.
  - now rewrite app_nil_r, St_eta.
  - rewrite IH, wsSendSafe_eq; simpl.
    now rewrite app_assoc.
Qed.

Lemma broadcast_eq st cs p :
  broadcast st cs p = set_sent st (st.(sent) ++ flat_map (fun ws => sends st ws (JObj p)) cs).
Proof. apply (fold_send_eq (fun ws => ws) (fun _ => JObj p)). Qed.

Lemma send_all_eq st ws ps :
  send_all st ws ps = set_sent st (st.(sent) ++ flat_map (fun p => sends st ws (JObj p)) ps).
Proof. apply (fold_send_eq (fun _ => ws) JObj). Qed.

(** [sendToAide] first makes sure the caregiver has a queue. *)
Lemma sendToAide_unfold st k data id ts :
  let q := match queue_of st k with Some q => q | None => [] end in
  let payload := mk_payload data id ts in
  exists pend,
    (forall k', queue_of (set_pending st pend) k' =
                if key_eqb k' k then Some (m_set String.eqb q id payload) else queue_of st k') /\
    sendToAide st k data id ts =
    match clients_of st k with
    | Some cs => if Nat.eqb (length cs) 0 then (set_pending st pend, false)
                 else (broadcast (set_pending st pend) cs payload, true)
    | None => (set_pending st pend, false)
    end.
Proof.
  intros q payload; unfold sendToAide.
  destruct (m_has key_eqb (pendingAlerts st) k) eqn:Eh.
  - eexists; split; [|reflexivity].
    intro k'; unfold queue_of; simpl.
    destruct (key_eqb_spec k' k) as [->|Hne].
    + rewrite m_get_set_eq by auto with maps; subst q.
      unfold m_has, queue_of in *; now destruct (m_get key_eqb (pendingAlerts st) k).
    + now rewrite m_get_set_neq by auto with maps.
  - eexists; split; [|reflexivity].
    intro k'; unfold queue_of; simpl.
    destruct (key_eqb_spec k' k) as [->|Hne].
    + rewrite m_get_set_eq by auto with maps.
      rewrite m_get_set_eq by auto with maps; subst q.
      unfold m_has, queue_of in *; now destruct (m_get key_eqb (pendingAlerts st) k).
    + now rewrite !m_get_set_neq by auto with maps.
Qed.

(** The queues after [sendToAide]. *)
Lemma sendToAide_queues st k data id ts :
  queue_of (fst (sendToAide st k data id ts)) k =
    Some (m_set String.eqb (match queue_of st k with Some q => q | None => [] end) id
                (mk_payload data id ts)) /\
  (forall k', k' <> k -> queue_of (fst (sendToAide st k data id ts)) k' = queue_of st k').
Proof.
  destruct (sendToAide_unfold st k data id ts) as [pend [Hq Hs]].
  assert (Hfst : forall k', queue_of (fst (sendToAide st k data id ts)) k' =
                            queue_of (set_pending st pend) k').
  { intro k'; rewrite Hs.
    destruct (clients_of st k) as [l|]; [destruct (Nat.eqb (length l) 0)|]; simpl; auto.
    rewrite broadcast_eq; auto. }
  split.
  - rewrite Hfst, Hq, (eqb_refl _ key_eqb_spec); reflexivity.
  - intros k' Hne; rewrite Hfst, Hq, (eqb_neq _ key_eqb_spec); auto.
Qed.

(** C1. [sendToAide(aideId, data)] stores the payload
    [{...data, alertId, timestamp}] under its alertId in the caregiver's
    queue (creating the queue if needed) whatever the connectivity, leaves
    every other queue and the registry as they were, returns [false] when
    no socket is registered for the caregiver and [true] otherwise, and in
    that case hands exactly that stored payload to [wsSendSafe] for every
    registered socket, in the registry's order (a socket that is not OPEN,
    or whose [send] throws, is skipped by [wsSendSafe]). *)
Theorem sendToAide_enqueues_then_broadcasts st k data id ts :
  let payload := mk_payload data id ts in
  let q := match queue_of st k with Some q => q | None => [] end in
  let cs := match clients_of st k with Some cs => cs | None => [] end in
  let r := sendToAide st k data id ts in
  queue_of (fst r) k = Some (m_set String.eqb q id payload) /\
  m_get String.eqb (m_set String.eqb q id payload) id = Some payload /\
  (forall k', k' <> k -> queue_of (fst r) k' = queue_of st k') /\
  (fst r).(wsClients) = st.(wsClients) /\
  snd r = negb (Nat.eqb (length cs) 0) /\
  (fst r).(sent) =
    st.(sent) ++ (if snd r then flat_map (fun ws => sends st ws (JObj payload)) cs else []).
Proof.
  intros payload q cs r.
  destruct (sendToAide_unfold st k data id ts) as [pend [Hq Hs]].
  assert (Hfst : forall k', queue_of (fst r) k' = queue_of (set_pending st pend) k'
                 /\ (fst r).(wsClients) = st.(wsClients)).
  { intro k'; subst r; rewrite Hs.
    destruct (clients_of st k) as [l|]; [destruct (Nat.eqb (length l) 0)|]; simpl; auto.
    rewrite broadcast_eq; auto. }
  split; [|split; [|split; [|split; [|split]]]].
  - rewrite (proj1 (Hfst k)), Hq, (eqb_refl _ key_eqb_spec); reflexivity.
  - apply m_get_set_eq; auto with maps.
  - intros k' Hne; rewrite (proj1 (Hfst k')), Hq, (eqb_neq _ key_eqb_spec); auto.
  - exact (proj2 (Hfst k)).
  - subst r cs; rewrite Hs; destruct (clients_of st k) as [l|]; simpl; auto.
    destruct (Nat.eqb (length l) 0); reflexivity.
  - subst r cs; rewrite Hs; destruct (clients_of st k) as [l|]; simpl; [|now rewrite app_nil_r].
    destruct (Nat.eqb (length l) 0); simpl; [now rewrite app_nil_r|].
    rewrite broadcast_eq; reflexivity.
Qed.

(** ** The retry tick *)

(** What one [wsClients] entry contributes to a tick. *)
Definition entry_sends (st : St) (e : Key * list Sock) : list (Sock * JVal) :=
  let (k, clientSet) := e in
  match queue_of st k with
  | None => []
  | Some queue =>
      if Nat.eqb (length queue) 0 then []
      else flat_map (fun p => flat_map (fun ws => sends st ws (JObj p)) clientSet) (m_values queue)
  end.

Lemma retry_entry_eq st e :
  retry_entry st e = set_sent st (st.(sent) ++ entry_sends st e).
Proof.
  destruct e as [k cs]; unfold retry_entry, entry_sends.
  destruct (queue_of st k) as [q|]; [|now rewrite app_nil_r, St_eta].
  destruct (Nat.eqb (length q) 0); [now rewrite app_nil_r, St_eta|].
  generalize (m_values q) as ps; intro ps.
  revert st; induction ps as [|p r IH]; intro st; simpl.
  - now rewrite app_nil_r, St_eta.
  - rewrite IH, broadcast_eq; simpl.
    now rewrite app_assoc.
Qed.

Lemma retryTick_eq st :
  retryTick st = set_sent st (st.(sent) ++ flat_map (entry_sends st) st.(wsClients)).
Proof.
  unfold retryTick; generalize (wsClients st) as l; intro l.
  revert st; induction l as [|e r IH]; intro st; simpl.
  - now rewrite app_nil_r, St_eta.
  - rewrite IH, retry_entry_eq; simpl.
    now rewrite app_assoc.
Qed.

(** C6. One tick of the retry timer re-sends, to every OPEN socket of
    every caregiver entry of [wsClients], every pending payload of that
    caregiver, even when the [send] of a socket of another caregiver [A]
    throws: [wsSendSafe] catches that exception, so nothing aborts the
    [forEach] over [wsClients]. *)
Theorem retry_tick_survives_failing_caregiver st A lA sA B cs q p ws :
  clients_of st A = Some lA -> In sA lA ->
  is_open st sA = true -> is_broken st sA = true ->
  B <> A -> In (B, cs) st.(wsClients) ->
  queue_of st B = Some q -> In p (m_values q) ->
  In ws cs -> is_open st ws = true -> is_broken st ws = false ->
  In (ws, JObj p) (retryTick st).(sent).
Proof.
  intros _ _ _ _ _ HB Hq Hp Hws Ho Hb.
  rewrite retryTick_eq; simpl.
  apply in_or_app; right.
  apply in_flat_map; exists (B, cs); split; auto.
  simpl; rewrite Hq.
  destruct (Nat.eqb (length q) 0) eqn:E.
  - apply Nat.eqb_eq, length_zero_iff_nil in E; subst q; destruct Hp.
  - apply in_flat_map; exists p; split; auto.
    apply in_flat_map; exists ws; split; auto.
    unfold sends; rewrite Ho, Hb; simpl; auto.
Qed.

(** ** The handshake *)

Lemma sends_open st ws ps :
  is_open st ws = true -> is_broken st ws = false ->
  flat_map (fun p => sends st ws (JObj p)) ps = map (fun p => (ws, JObj p)) ps.
Proof.
  intros Ho Hb; induction ps as [|p r IH]; simpl; auto.
  unfold sends at 1; rewrite Ho, Hb; simpl; now rewrite IH.
Qed.

Lemma accept_facts st ws k :
  let q0 := match queue_of st k with Some q => q | None => [] end in
  let st' := accept st ws k in
  (exists set, clients_of st' k = Some set /\ In ws set) /\
  queue_of st' k = Some q0 /\
  (forall k', k' <> k -> queue_of st' k' = queue_of st k') /\
  owners st' = owners st ++ [(ws, k)] /\
  opened st' = opened st /\ broken st' = broken st /\ conns st' = conns st /\
  sent st' = sent st ++ flat_map (fun p => sends st ws (JObj p)) (m_values q0) /\
  (forall k' cs s, In (k', cs) (wsClients st') -> In s cs ->
     (s = ws /\ k' = k) \/ exists cs0, In (k', cs0) (wsClients st) /\ In s cs0) /\
  (forall q, queue_of st k = Some q -> pendingAlerts st' = pendingAlerts st) /\
  (queue_of st k = None -> pendingAlerts st' = m_set key_eqb (pendingAlerts st) k []).
Proof.
  intros q0 st'.
  (* the registry after registration *)
  set (wc1 := if m_has key_eqb st.(wsClients) k then st.(wsClients)
              else m_set key_eqb st.(wsClients) k []).
  set (set := match m_get key_eqb wc1 k with Some s => s | None => [] end).
  set (wc2 := m_set key_eqb wc1 k (set_add set ws)).
  set (pd := if m_has key_eqb st.(pendingAlerts) k then st.(pendingAlerts)
             else m_set key_eqb st.(pendingAlerts) k []).
  assert (Hst' : st' = mkSt wc2 pd st.(opened) st.(broken) st.(conns) (st.(owners) ++ [(ws, k)])
                   (st.(sent) ++ flat_map (fun p => sends st ws (JObj p)) (m_values q0))
                   st.(patientsCache) st.(patientsCacheTs)).
  { subst st' wc2 set wc1 pd q0; unfold accept.
    unfold set_wsClients, set_pending, set_owners, clients_of, queue_of, send_all.
    destruct (m_has key_eqb (wsClients st) k) eqn:Ea; cbn [wsClients pendingAlerts];
    destruct (m_has key_eqb (pendingAlerts st) k) eqn:Ep; cbn [wsClients pendingAlerts];
    rewrite fold_send_eq; cbn;
    unfold m_has in Ep; destruct (m_get key_eqb (pendingAlerts st) k) eqn:Eg; try discriminate;
    rewrite ?m_get_set_eq by auto with maps; try rewrite Eg; reflexivity. }
  assert (Hpd : m_get key_eqb pd k = Some q0).
  { subst pd q0; unfold queue_of, m_has.
    destruct (m_get key_eqb (pendingAlerts st) k) eqn:Eg; simpl; rewrite ?Eg; auto.
    apply m_get_set_eq; auto with maps. }
  rewrite Hst'; unfold clients_of, queue_of; simpl.
  split; [|split; [|split; [|split; [|split; [|split; [|split; [|split; [|split; [|split]]]]]]]]]; auto.
  - exists (set_add set ws); split.
    + subst wc2; apply m_get_set_eq; auto with maps.
    + unfold set_add; destruct (existsb (Nat.eqb ws) set) eqn:E.
      * apply existsb_exists in E as [x [Hx Hx']]; apply Nat.eqb_eq in Hx'; now subst.
      * apply in_or_app; simpl; auto.
  - intros k' Hne; subst pd; destruct (m_has key_eqb (pendingAlerts st) k); auto.
    apply m_get_set_neq; auto with maps.
  - intros k' cs s Hin Hs; subst wc2.
    apply In_m_set in Hin as [Heq|Hin].
    + injection Heq as -> ->.
      unfold set_add in Hs; destruct (existsb (Nat.eqb ws) set).
      * right; exists set; split; auto.
        subst set; destruct (m_get key_eqb wc1 k) as [s0|] eqn:Eg; [|destruct Hs].
        apply (m_get_In _ key_eqb_spec) in Eg.
        subst wc1; destruct (m_has key_eqb (wsClients st) k); auto.
        apply In_m_set in Eg as [E|E]; [injection E as E; subst s0; destruct Hs|auto].
      * apply in_app_or in Hs as [Hs|[<-|[]]]; [|left; auto].
        right; exists set; split; auto.
        subst set; destruct (m_get key_eqb wc1 k) as [s0|] eqn:Eg; [|destruct Hs].
        apply (m_get_In _ key_eqb_spec) in Eg.
        subst wc1; destruct (m_has key_eqb (wsClients st) k); auto.
        apply In_m_set in Eg as [E|E]; [injection E as E; subst s0; destruct Hs|auto].
    + subst wc1; destruct (m_has key_eqb (wsClients st) k); [right; eauto|].
      apply In_m_set in Hin as [E|E]; [injection E as -> ->; destruct Hs|right; eauto].
  - intros q Hq; subst pd; unfold m_has; unfold queue_of in Hq; now rewrite Hq.
  - intros Hq; subst pd; unfold m_has; unfold queue_of in Hq; now rewrite Hq.
Qed.

(** The state a new socket starts its handshake in. *)
Definition connect_state (st : St) (ws : Sock) : St :=
  set_opened (set_conns st (st.(conns) ++ [ws])) (st.(opened) ++ [ws]).

Lemma step_connect cfg st ws url token aideId pwd lk :
  existsb (Nat.eqb ws) st.(conns) = false ->
  step cfg st (EConnect ws url token aideId pwd lk) =
  connection cfg (connect_state st ws) ws url token aideId pwd lk.
Proof. intro H; simpl; now rewrite H. Qed.

Lemma reject_eq st ws e :
  reject st ws e =
  set_opened (set_sent st (st.(sent) ++ sends st ws e))
             (filter (fun y => negb (Nat.eqb ws y)) st.(opened)).
Proof. unfold reject, ws_close; now rewrite wsSendSafe_eq. Qed.

Lemma is_open_reject st ws e : is_open (reject st ws e) ws = false.
Proof.
  rewrite reject_eq; unfold is_open; simpl.
  apply Bool.not_true_iff_false; intro H.
  apply existsb_exists in H as [x [Hx Hx']]; apply Nat.eqb_eq in Hx'; subst x.
  apply filter_In in Hx as [_ Hx]; rewrite Nat.eqb_refl in Hx; discriminate.
Qed.

Lemma token_ok_iff cfg token :
  (negb (String.eqb cfg.(API_KEY) "") &&
   negb (match token with Some t => String.eqb t cfg.(API_KEY) | None => false end)) = false <->
  (cfg.(API_KEY) = "" \/ token = Some cfg.(API_KEY)).
Proof.
  destruct (String.eqb_spec cfg.(API_KEY) "") as [E|E]; simpl.
  - split; auto.
  - destruct token as [t|]; simpl.
    + destruct (String.eqb_spec t cfg.(API_KEY)) as [->|Ht]; simpl.
      * split; auto.
      * split; [discriminate|intros [H|H]; [contradiction|congruence]].
    + split; [discriminate|intros [H|H]; [contradiction|discriminate]].
Qed.

Lemma falsy_param_false o : falsy_param o = false <-> exists s, o = Some s /\ s <> "".
Proof.
  destruct o as [s|]; simpl; split.
  - intro H; exists s; split; auto; apply String.eqb_neq; auto.
  - intros [s' [[= <-] H]]; apply String.eqb_neq; auto.
  - discriminate.
  - intros [s' [H _]]; discriminate.
Qed.

(** Every handshake ends in exactly one of: a rejection (an error object
    sent, the socket closed), or the successful branch. *)
Lemma connection_cases cfg st ws url token aideId pwd lk :
  (exists e, connection cfg st ws url token aideId pwd lk = reject st ws e) \/
  (exists id p d,
     aideId = Some id /\ id <> "" /\ pwd = Some p /\ p <> "" /\
     (cfg.(API_KEY) = "" \/ token = Some cfg.(API_KEY)) /\
     lk = LOk (Some d) /\ get_prop d "mot_de_passe" = Some (JStr p) /\
     connection cfg st ws url token aideId pwd lk = accept st ws (KStr id)).
Proof.
  unfold connection.
  destruct (falsy_param aideId) eqn:Ea; [left; eauto|].
  destruct (falsy_param pwd) eqn:Ep; [left; eauto|].
  destruct (negb (String.eqb cfg.(API_KEY) "") &&
            negb (match token with Some t => String.eqb t cfg.(API_KEY) | None => false end)) eqn:Et;
    [left; eauto|].
  apply token_ok_iff in Et.
  apply falsy_param_false in Ea as [id [-> Hid]].
  apply falsy_param_false in Ep as [p [-> Hp]].
  destruct lk as [|st0|[d|]]; try (left; unfold internal_error; eauto; fail).
  destruct d as [| | | | |fs]; try (left; unfold internal_error; eauto; fail);
  destruct (get_prop _ "mot_de_passe") as [[| | | m | |]|] eqn:Eg; try (left; eauto; fail);
  (destruct (String.eqb_spec m p) as [->|]; [right; do 3 eexists; repeat split; eauto | left; eauto]).
Qed.

(** C3. A handshake that passes every check (an [id] and a [pwd]
    supplied, the token matching when [API_KEY] is set, the lookup
    answering OK with [mot_de_passe] equal to [pwd]) registers the new
    socket in [wsClients] under [id], attaches its handlers, and sends it
    at once, unprompted, every payload pending for [id], in queue order. *)
Theorem handshake_registers_and_flushes cfg st ws url token id pwd fs :
  existsb (Nat.eqb ws) st.(conns) = false -> owner st ws = None -> is_broken st ws = false ->
  id <> "" -> pwd <> "" ->
  (cfg.(API_KEY) = "" \/ token = Some cfg.(API_KEY)) ->
  obj_get fs "mot_de_passe" = Some (JStr pwd) ->
  let q0 := match queue_of st (KStr id) with Some q => q | None => [] end in
  let st' := step cfg st (EConnect ws url token (Some id) (Some pwd) (LOk (Some (JObj fs)))) in
  (exists set, clients_of st' (KStr id) = Some set /\ In ws set) /\
  owner st' ws = Some (KStr id) /\
  queue_of st' (KStr id) = Some q0 /\
  st'.(sent) = st.(sent) ++ map (fun p => (ws, JObj p)) (m_values q0).
Proof.
  intros Hf Ho Hb Hid Hpwd Htok Hm q0 st'.
  assert (E : st' = accept (connect_state st ws) ws (KStr id)).
  { subst st'; rewrite step_connect by auto; unfold connection; simpl.
    rewrite (proj2 (String.eqb_neq id "") Hid), (proj2 (String.eqb_neq pwd "") Hpwd).
    apply token_ok_iff in Htok; rewrite Htok; simpl.
    rewrite Hm, String.eqb_refl; reflexivity. }
  destruct (accept_facts (connect_state st ws) ws (KStr id))
    as (Hreg & Hq & _ & Hown & _ & _ & _ & Hsent & _).
  rewrite <- E in *.
  split; [|split; [|split]]; auto.
  - unfold owner; rewrite Hown; simpl.
    rewrite m_get_app; unfold owner in Ho; simpl in Ho |- *.
    rewrite Ho; simpl; now rewrite Nat.eqb_refl.
  - rewrite Hsent; simpl; f_equal.
    apply sends_open; auto.
    unfold is_open; simpl; apply existsb_exists; exists ws; split;
      [apply in_or_app; simpl; auto | apply Nat.eqb_refl].
Qed.

Lemma sends_connect st ws e :
  is_broken st ws = false -> sends (connect_state st ws) ws e = [(ws, e)].
Proof.
  intro Hb; unfold sends, is_open, is_broken in *; simpl; rewrite Hb.
  replace (existsb (Nat.eqb ws) (opened st ++ [ws])) with true; [reflexivity|].
  symmetry; apply existsb_exists; exists ws; split;
    [apply in_or_app; simpl; auto | apply Nat.eqb_refl].
Qed.

(** The object sent on a token mismatch. *)
Definition invalid_token (cfg : Config) (token : option string) (url : string) : JVal :=
  JObj [("error", JStr "Invalid token");
        ("debug", JObj [("token_recu", opt_str token);
                        ("api_key_attendue", JStr cfg.(API_KEY));
                        ("url", JStr url)])].

(** C7. The [id] check comes first: without an [id] (whatever [pwd],
    [token] and the lookup would give) the new socket receives exactly the
    missing-id error and is closed, nothing being registered.  With [id]
    and [pwd] present and [API_KEY] set, a token other than [API_KEY]
    sends the invalid-token error and closes the socket whatever the
    credential lookup would have answered, nothing being registered. *)
Theorem handshake_id_first_and_token_gate cfg st ws url :
  existsb (Nat.eqb ws) st.(conns) = false -> is_broken st ws = false ->
  (forall token aideId pwd lk,
     falsy_param aideId = true ->
     let st' := step cfg st (EConnect ws url token aideId pwd lk) in
     st'.(sent) = st.(sent) ++ [(ws, err "Missing 'id' query param")] /\
     is_open st' ws = false /\
     st'.(wsClients) = st.(wsClients) /\ st'.(pendingAlerts) = st.(pendingAlerts) /\
     st'.(owners) = st.(owners)) /\
  (forall token id pwd lk,
     cfg.(API_KEY) <> "" -> token <> Some cfg.(API_KEY) -> id <> "" -> pwd <> "" ->
     let st' := step cfg st (EConnect ws url token (Some id) (Some pwd) lk) in
     st'.(sent) = st.(sent) ++ [(ws, invalid_token cfg token url)] /\
     is_open st' ws = false /\
     st'.(wsClients) = st.(wsClients) /\ st'.(pendingAlerts) = st.(pendingAlerts) /\
     st'.(owners) = st.(owners)).
Proof.
  intros Hf Hb; split.
  - intros token aideId pwd lk Ha st'.
    assert (E : st' = reject (connect_state st ws) ws (err "Missing 'id' query param")).
    { subst st'; rewrite step_connect by auto; unfold connection; now rewrite Ha. }
    rewrite E; split; [|split; [apply is_open_reject|]]; rewrite reject_eq; simpl; auto.
    now rewrite sends_connect.
  - intros token id pwd lk Hk Ht Hid Hp st'.
    assert (E : st' = reject (connect_state st ws) ws (invalid_token cfg token url)).
    { subst st'; rewrite step_connect by auto; unfold connection; simpl.
      rewrite (proj2 (String.eqb_neq id "") Hid), (proj2 (String.eqb_neq pwd "") Hp).
      destruct (negb (String.eqb cfg.(API_KEY) "") &&
                negb (match token with Some t => String.eqb t cfg.(API_KEY) | None => false end))
        eqn:Et; [reflexivity|].
      apply token_ok_iff in Et as [Et|Et]; contradiction. }
    rewrite E; split; [|split; [apply is_open_reject|]]; rewrite reject_eq; simpl; auto.
    now rewrite sends_connect.
Qed.

(** C10. A rejected handshake (missing [id], missing [pwd], token
    mismatch, a non-OK lookup, an exception during authentication, or a
    wrong password) leaves [wsClients] and [pendingAlerts] exactly as they
    were and attaches no handler to the socket. *)
Theorem handshake_rejection_changes_nothing cfg st ws url token aideId pwd lk :
  existsb (Nat.eqb ws) st.(conns) = false -> owner st ws = None ->
  (falsy_param aideId = true \/
   falsy_param pwd = true \/
   (cfg.(API_KEY) <> "" /\ token <> Some cfg.(API_KEY)) \/
   (exists status, lk = LNotOk status) \/
   lk = LThrows \/ lk = LOk None \/ lk = LOk (Some JNull) \/
   (exists d, lk = LOk (Some d) /\
              forall p, pwd = Some p -> get_prop d "mot_de_passe" <> Some (JStr p))) ->
  let st' := step cfg st (EConnect ws url token aideId pwd lk) in
  st'.(wsClients) = st.(wsClients) /\ st'.(pendingAlerts) = st.(pendingAlerts) /\
  owner st' ws = None.
Proof.
  intros Hf Ho Hrej st'; subst st'; rewrite step_connect by auto.
  destruct (connection_cases cfg (connect_state st ws) ws url token aideId pwd lk)
    as [[e ->]|(id & p & d & -> & Hid & -> & Hp & Htok & -> & Hm & _)].
  - rewrite reject_eq; simpl; auto.
  - exfalso.
    destruct Hrej as [H|[H|[[H1 H2]|[[s H]|[H|[H|[H|[d' [H H']]]]]]]]]; try discriminate.
    + simpl in H; apply String.eqb_eq in H; contradiction.
    + simpl in H; apply String.eqb_eq in H; contradiction.
    + destruct Htok; contradiction.
    + injection H as ->; discriminate.
    + injection H as <-; now apply (H' p).
Qed.

(** ** Acknowledgments *)

Definition pending_has (st : St) (k : Key) (id : string) : bool :=
  match queue_of st k with Some q => m_has String.eqb q id | None => false end.

(** An acknowledgment message [{type: "ack", alertId: id}] (possibly with
    further fields). *)
Definition is_ack (v : JVal) (id : string) : Prop :=
  prop_is_str v "type" "ack" = true /\ get_prop v "alertId" = Some (JStr id).

Lemma on_message_ack st ws k v id :
  owner st ws = Some k -> is_ack v id -> id <> "" ->
  on_message st ws (Some v) =
  match queue_of st k with
  | Some q => if m_has String.eqb q id
              then set_pending st (m_set key_eqb st.(pendingAlerts) k (m_delete String.eqb q id))
              else st
  | None => st
  end.
Proof.
  intros Ho [Ht Ha] Hid; unfold on_message; rewrite Ho, Ht, Ha.
  assert (Hv : js_truthy v = true) by (destruct v; try discriminate; reflexivity).
  rewrite Hv; simpl; rewrite (proj2 (String.eqb_neq id "") Hid); simpl.
  destruct (queue_of st k); reflexivity.
Qed.

(** C8. On a socket of caregiver [k], an acknowledgment of [id] handled
    twice leaves the whole state as handled once, and afterwards [id] is
    no longer pending for [k]; an acknowledgment of an [id] that is not
    pending changes nothing (the handler returns normally). *)
Theorem ack_idempotent_and_unknown_noop cfg st ws k v id :
  owner st ws = Some k -> is_ack v id -> id <> "" ->
  let e := EMessage ws (Some v) in
  let st1 := step cfg st e in
  step cfg st1 e = st1 /\
  pending_has st1 k id = false /\
  (pending_has st k id = false -> st1 = st).
Proof.
  intros Ho Hack Hid e st1; subst e st1; simpl.
  rewrite (on_message_ack st ws k v id) by auto.
  unfold pending_has.
  destruct (queue_of st k) as [q|] eqn:Eq; [|rewrite on_message_ack with (k := k) (id := id) by auto; rewrite Eq; repeat split; auto].
  destruct (m_has String.eqb q id) eqn:Eh.
  - assert (Hq1 : queue_of (set_pending st (m_set key_eqb (pendingAlerts st) k (m_delete String.eqb q id))) k
                  = Some (m_delete String.eqb q id)).
    { unfold queue_of; simpl; apply m_get_set_eq; auto with maps. }
    assert (Hh : m_has String.eqb (m_delete String.eqb q id) id = false).
    { unfold m_has; rewrite m_get_delete_eq; auto with maps. }
    repeat split.
    + rewrite on_message_ack with (k := k) (id := id) by auto.
      now rewrite Hq1, Hh.
    + now rewrite Hq1.
    + discriminate.
  - repeat split; auto.
    + rewrite on_message_ack with (k := k) (id := id) by auto.
      now rewrite Eq, Eh.
    + now rewrite Eq.
Qed.

(** ** The patient cache on a failed refetch *)

Definition cfg_ex : Config := mkConfig "supercleAPI" "https://api.fake-database.com".

Definition patients_ex : JVal :=
  JArr [JObj [("id_patient", JNum 12); ("fk_aide_soignant", JStr "B")]].

(** The cache filled at time 0 with a directory mapping patient 12 to
    caregiver "B". *)
Definition st_cached : St := set_cache init patients_ex 0.

(** C4 fails: 40 s after the last fetch (TTL 30 s) the refetch rejects,
    and [fetchAllPatients] returns [[]] instead of the cached array, so
    [getAideForPatient("12")] returns [null] where the stale mapping
    (still served at 1 s) names "B". *)
Lemma stale_read_on_failed_refetch_is_empty :
  fst (fetchAllPatients cfg_ex st_cached 40000 PFThrows) <> st_cached.(patientsCache) /\
  fst (fetchAllPatients cfg_ex st_cached 40000 PFThrows) = JArr [] /\
  fst (getAideForPatient cfg_ex st_cached 40000 PFThrows "12") = None /\
  fst (getAideForPatient cfg_ex st_cached 1000 PFThrows "12") = Some (JStr "B").
Proof. vm_compute; repeat split; discriminate. Qed.

(** C4 as amended.  A read made when the cache is empty (falsy) or at
    least [PATIENTS_CACHE_TTL_MS] after the last successful fetch, whose
    refetch fails ([fetch] or [res.json()] rejects), returns an empty
    array from [fetchAllPatients] and keeps the cached value and its
    timestamp; [getAideForPatient] then returns [null]. *)
Theorem failed_refetch_returns_empty cfg st now f patientId :
  (js_truthy st.(patientsCache) = false \/ (now - st.(patientsCacheTs) >= PATIENTS_CACHE_TTL_MS)%Z) ->
  cfg.(API_BASE) <> "" ->
  (f = PFThrows \/ exists t, f = PFJson None t) ->
  fetchAllPatients cfg st now f = (JArr [], st) /\
  getAideForPatient cfg st now f patientId = (None, st).
Proof.
  intros Hstale Hbase Hf.
  assert (E : fetchAllPatients cfg st now f = (JArr [], st)).
  { unfold fetchAllPatients.
    replace (js_truthy st.(patientsCache) &&
             Z.ltb (now - st.(patientsCacheTs)) PATIENTS_CACHE_TTL_MS) with false.
    - rewrite (proj2 (String.eqb_neq _ _) Hbase).
      destruct Hf as [->|[t ->]]; reflexivity.
    - destruct Hstale as [->|H]; [reflexivity|].
      rewrite (proj2 (Z.ltb_ge _ _) (Z.ge_le _ _ H)), andb_false_r; reflexivity. }
  split; auto.
  unfold getAideForPatient; rewrite E; reflexivity.
Qed.

(** ** The MQTT router on a [delivery] message that is not JSON *)

(** C5 fails: a [delivery] message whose payload is not JSON makes
    [JSON.parse] throw outside any [try], so the handler's promise
    rejects (an unhandled rejection), whatever the directory answers. *)
Theorem mqtt_delivery_non_json_uncaught cfg st now f parse alertId ts :
  JSON_parse_conforms parse ->
  exists st', mqtt_message cfg st "alert/box/P1/delivery" "hello" now f parse alertId ts
              = Uncaught "SyntaxError" st'.
Proof.
  intro Hp.
  assert (Hh : parse "hello" = None) by (apply Hp; reflexivity).
  unfold mqtt_message; simpl.
  destruct (getAideForPatient cfg st now f "P1") as [a st1].
  rewrite Hh; eauto.
Qed.

(** ** Pending entries leave the store only through an acknowledgment *)

Lemma pending_on_close st ws : (on_close st ws).(pendingAlerts) = st.(pendingAlerts).
Proof.
  unfold on_close; destruct (owner st ws); [|reflexivity].
  destruct (clients_of st k); [|reflexivity].
  destruct (Nat.eqb _ 0); reflexivity.
Qed.

Lemma queue_of_pending st st' k :
  st'.(pendingAlerts) = st.(pendingAlerts) -> queue_of st' k = queue_of st k.
Proof. unfold queue_of; now intros ->. Qed.

Lemma pending_has_queue st st' k id :
  queue_of st' k = queue_of st k -> pending_has st' k id = pending_has st k id.
Proof. unfold pending_has; now intros ->. Qed.

Lemma pending_has_kept st st' k id :
  (forall q, queue_of st k = Some q ->
     exists q', queue_of st' k = Some q' /\ (m_has String.eqb q id = true -> m_has String.eqb q' id = true)) ->
  pending_has st k id = true -> pending_has st' k id = true.
Proof.
  unfold pending_has; intros H Hin.
  destruct (queue_of st k) as [q|]; [|discriminate].
  destruct (H q eq_refl) as [q' [-> Hq']]; auto.
Qed.

Lemma kept_same st st' k id :
  queue_of st' k = queue_of st k -> pending_has st k id = true -> pending_has st' k id = true.
Proof. intros E; apply pending_has_kept; intros q Hq; exists q; rewrite E; auto. Qed.

Lemma accept_keeps st ws k0 k id :
  pending_has st k id = true -> pending_has (accept st ws k0) k id = true.
Proof.
  destruct (accept_facts st ws k0) as (_ & Hq & Hq' & _).
  apply pending_has_kept; intros q E.
  destruct (key_eqb_spec k k0) as [->|Hne].
  - exists q; rewrite Hq, E; auto.
  - exists q; rewrite Hq', E; auto.
Qed.

(** One event removes a pending entry only when it is an acknowledgment
    of that alertId arriving on a socket of that caregiver. *)
Lemma step_removes_only_by_ack cfg st ev k id :
  pending_has st k id = true -> pending_has (step cfg st ev) k id = false ->
  exists ws v, ev = EMessage ws (Some v) /\ owner st ws = Some k /\ is_ack v id.
Proof.
  intros Hin Hout.
  destruct ev as [ws url token aideId pwd lk|ws raw|ws| |k0 data id0 ts|ws];
    [|simpl in Hout..].
  - exfalso; destruct (existsb (Nat.eqb ws) (conns st)) eqn:Ef;
      [simpl in Hout; rewrite Ef in Hout; congruence|rewrite step_connect in Hout by auto].
    destruct (connection_cases cfg (connect_state st ws) ws url token aideId pwd lk)
      as [[e E]|(id1 & p & d & _ & _ & _ & _ & _ & _ & _ & E)]; rewrite E in Hout.
    + rewrite (kept_same st) in Hout; [discriminate| |exact Hin].
      apply queue_of_pending; rewrite reject_eq; reflexivity.
    + rewrite accept_keeps in Hout; [discriminate|exact Hin].
  - unfold on_message in Hout.
    destruct (owner st ws) as [k0|] eqn:Ho; [|congruence].
    destruct raw as [v|]; [|congruence].
    destruct (js_truthy v && prop_is_str v "type" "ack" && opt_truthy (get_prop v "alertId")) eqn:Ec.
    + destruct (queue_of st k0) as [q|] eqn:Eq; [|congruence].
      destruct (get_prop v "alertId") as [[| | |id0| |]|] eqn:Ea; try congruence.
      destruct (m_has String.eqb q id0) eqn:Eh; [|congruence].
      unfold pending_has, queue_of in Hout; simpl in Hout.
      destruct (key_eqb_spec k k0) as [->|Hne].
      * rewrite m_get_set_eq in Hout by auto with maps.
        destruct (String.eqb_spec id id0) as [->|Hid].
        -- exists ws, v; repeat split; auto.
           apply andb_prop in Ec as [Ec _]; apply andb_prop in Ec as [_ Ec]; exact Ec.
        -- exfalso; unfold pending_has, queue_of, m_has in Hin, Hout; unfold queue_of in Eq.
           rewrite Eq in Hin; rewrite m_get_delete_neq in Hout by auto with maps.
           rewrite Hout in Hin; discriminate.
      * exfalso; rewrite m_get_set_neq in Hout by auto with maps.
        unfold pending_has, queue_of in Hin; congruence.
    + exfalso; destruct (js_truthy v && prop_is_str v "type" "resend_pending").
      * destruct (queue_of st k0) as [q|]; [|congruence].
        rewrite (kept_same st) in Hout; [discriminate| |exact Hin].
        apply queue_of_pending; rewrite send_all_eq; reflexivity.
      * congruence.
  - exfalso; rewrite (kept_same st) in Hout; [discriminate| |exact Hin].
    apply queue_of_pending; rewrite pending_on_close; reflexivity.
  - exfalso; rewrite (kept_same st) in Hout; [discriminate| |exact Hin].
    apply queue_of_pending; rewrite retryTick_eq; reflexivity.
  - exfalso.
    destruct (sendToAide_queues st k0 data id0 ts) as (Hq & Hq').
    rewrite (pending_has_kept st) in Hout; [discriminate| |exact Hin].
    intros q E; destruct (key_eqb_spec k k0) as [->|Hne].
    + rewrite Hq, E; eexists; split; [reflexivity|].
      apply m_has_set; auto with maps.
    + exists q; rewrite Hq', E; auto.
  - exfalso; rewrite (kept_same st) in Hout; [discriminate| |exact Hin].
    apply queue_of_pending; reflexivity.
Qed.

(** C2. Over any sequence of events of the core (connections with their
    flush, acknowledgments and resend requests, disconnections, retry
    ticks, dispatches), an entry pending for caregiver [k] under [id]
    disappears only at an acknowledgment of exactly [id] received on a
    socket of [k]; and right after a dispatch the dispatched alert is
    pending (whether or not it was delivered). *)
Theorem pending_removed_only_by_ack cfg :
  (forall st evs k id,
     pending_has st k id = true -> pending_has (run cfg st evs) k id = false ->
     exists pre ws v post,
       evs = pre ++ EMessage ws (Some v) :: post /\
       owner (run cfg st pre) ws = Some k /\ is_ack v id) /\
  (forall st k data id ts, pending_has (step cfg st (EDispatch k data id ts)) k id = true).
Proof.
  split.
  - intros st evs; revert st; induction evs as [|e r IH]; intros st k id Hin Hout; simpl in Hout.
    + congruence.
    + destruct (pending_has (step cfg st e) k id) eqn:E.
      * destruct (IH _ _ _ E Hout) as (pre & ws & v & post & -> & Ho & Ha).
        exists (e :: pre), ws, v, post; split; [reflexivity|split; auto].
      * destruct (step_removes_only_by_ack cfg st e k id Hin E) as (ws & v & -> & Ho & Ha).
        exists [], ws, v, r; split; [reflexivity|split; auto].
  - intros st k data id ts; simpl.
    destruct (sendToAide_queues st k data id ts) as (Hq & _).
    unfold pending_has; rewrite Hq; unfold m_has.
    rewrite m_get_set_eq by auto with maps; reflexivity.
Qed.

(** ** No delivery across caregivers *)

(** [p] is the payload of a dispatch to caregiver [B] among [evs]. *)
Definition dispatched (B : Key) (evs : list Event) (p : Payload) : Prop :=
  exists data id ts, In (EDispatch B data id ts) evs /\ p = mk_payload data id ts.

Lemma dispatched_app B evs e p : dispatched B evs p -> dispatched B (evs ++ [e]) p.
Proof. intros (d & i & t & H & ->); exists d, i, t; split; auto; apply in_or_app; auto. Qed.

(** The invariant of the states reachable from [init] by [evs]. *)
Record Inv (evs : list Event) (st : St) : Prop := {
  inv_reg : forall k cs s, In (k, cs) st.(wsClients) -> In s cs -> owner st s = Some k;
  inv_owners : forall s k, In (s, k) st.(owners) -> In s st.(conns);
  inv_opened : forall s, In s st.(opened) -> In s st.(conns);
  inv_sent_conns : forall s m, In (s, m) st.(sent) -> In s st.(conns);
  inv_queue : forall k q p, queue_of st k = Some q -> In p (m_values q) -> dispatched k evs p;
  inv_sent : forall s m B, In (s, m) st.(sent) -> owner st s = Some B ->
             exists p, m = JObj p /\ dispatched B evs p
}.

Lemma Inv_init : Inv [] init.
Proof. constructor; simpl; try contradiction; discriminate. Qed.

Lemma Inv_mono evs e st : Inv evs st -> Inv (evs ++ [e]) st.
Proof.
  intros [H1 H2 H3 H4 H5 H6]; constructor; auto.
  - intros k q p Hq Hp; apply dispatched_app; eauto.
  - intros s m B Hs Ho; destruct (H6 s m B Hs Ho) as [p [-> Hp]].
    exists p; split; auto; now apply dispatched_app.
Qed.

Lemma sends_In st s m s' m' :
  In (s', m') (sends st s m) -> s' = s /\ m' = m /\ In s st.(opened).
Proof.
  unfold sends; destruct (is_open st s) eqn:Ho; simpl; [|contradiction].
  destruct (is_broken st s); simpl; [contradiction|].
  intros [[= -> ->]|[]]; repeat split.
  apply existsb_exists in Ho as [x [Hx Hx']]; apply Nat.eqb_eq in Hx'; now subst.
Qed.

Lemma Inv_frame evs st st' :
  Inv evs st ->
  st'.(wsClients) = st.(wsClients) -> st'.(pendingAlerts) = st.(pendingAlerts) ->
  st'.(owners) = st.(owners) -> st'.(conns) = st.(conns) -> st'.(sent) = st.(sent) ->
  (forall s, In s st'.(opened) -> In s st.(opened)) -> Inv evs st'.
Proof.
  intros [H1 H2 H3 H4 H5 H6] Ec Ep Eo En Es Eop.
  assert (Eow : forall s, owner st' s = owner st s) by (intro; unfold owner; now rewrite Eo).
  assert (Eq : forall k, queue_of st' k = queue_of st k) by (intro; unfold queue_of; now rewrite Ep).
  constructor; rewrite ?Ec, ?Eo, ?En, ?Es; intros; rewrite ?Eow, ?Eq in *; eauto.
Qed.

Lemma Inv_send evs st new :
  Inv evs st ->
  (forall s m, In (s, m) new -> In s st.(opened) /\
     forall B, owner st s = Some B -> exists p, m = JObj p /\ dispatched B evs p) ->
  Inv evs (set_sent st (st.(sent) ++ new)).
Proof.
  intros [H1 H2 H3 H4 H5 H6] Hn; constructor; simpl; auto.
  - intros s m Hs; apply in_app_or in Hs as [Hs|Hs]; eauto.
    apply H3; apply (Hn s m Hs).
  - intros s m B Hs Ho; apply in_app_or in Hs as [Hs|Hs]; eauto.
    apply (Hn s m Hs); auto.
Qed.

Lemma Inv_pending evs st pend :
  Inv evs st ->
  (forall k q p, queue_of (set_pending st pend) k = Some q -> In p (m_values q) -> dispatched k evs p) ->
  Inv evs (set_pending st pend).
Proof. intros [H1 H2 H3 H4 H5 H6] Hq; constructor; simpl; auto. Qed.

Lemma Inv_clients evs st c :
  Inv evs st ->
  (forall k cs s, In (k, cs) c -> In s cs -> exists cs0, In (k, cs0) st.(wsClients) /\ In s cs0) ->
  Inv evs (set_wsClients st c).
Proof.
  intros [H1 H2 H3 H4 H5 H6] Hc; constructor; simpl; auto.
  intros k cs s Hk Hs; destruct (Hc k cs s Hk Hs) as [cs0 [Hk0 Hs0]]; eauto.
Qed.

Lemma owner_fresh evs st ws :
  Inv evs st -> existsb (Nat.eqb ws) st.(conns) = false -> owner st ws = None.
Proof.
  intros HI Hf; unfold owner; apply m_get_not_in; [exact Nat_eqb_spec'|].
  intros k Hk; apply (inv_owners _ _ HI) in Hk.
  assert (existsb (Nat.eqb ws) (conns st) = true) by (apply existsb_exists; exists ws; split; auto; apply Nat.eqb_refl).
  congruence.
Qed.

Lemma not_conns_fresh st ws s :
  existsb (Nat.eqb ws) st.(conns) = false -> In s st.(conns) -> s <> ws.
Proof.
  intros Hf Hs ->.
  assert (existsb (Nat.eqb ws) (conns st) = true) by (apply existsb_exists; exists ws; split; auto; apply Nat.eqb_refl).
  congruence.
Qed.

Lemma owner_app st ws k s :
  m_get Nat.eqb (st.(owners) ++ [(ws, k)]) s =
  match owner st s with Some v => Some v | None => if Nat.eqb s ws then Some k else None end.
Proof. rewrite m_get_app; unfold owner; destruct (m_get Nat.eqb (owners st) s); reflexivity. Qed.

Lemma Inv_connect_state evs st ws : Inv evs st -> Inv evs (connect_state st ws).
Proof.
  intros [H1 H2 H3 H4 H5 H6]; constructor; unfold connect_state, owner, queue_of in *; simpl in *.
  - exact H1.
  - intros s k H; apply in_or_app; left; eauto.
  - intros s H; apply in_app_or in H as [H|[<-|[]]]; apply in_or_app; simpl; auto.
  - intros s m H; apply in_or_app; left; eauto.
  - exact H5.
  - exact H6.
Qed.

Lemma Inv_connection cfg evs st ws url token aideId pwd lk :
  Inv evs st -> existsb (Nat.eqb ws) st.(conns) = false ->
  Inv evs (connection cfg (connect_state st ws) ws url token aideId pwd lk).
Proof.
  intros HI Hf.
  pose proof (Inv_connect_state evs st ws HI) as HI0.
  set (st0 := connect_state st ws) in *.
  assert (Hown0 : owner st0 ws = None) by exact (owner_fresh evs st ws HI Hf).
  assert (Hws0 : In ws st0.(conns)) by (simpl; apply in_or_app; simpl; auto).
  destruct (connection_cases cfg st0 ws url token aideId pwd lk)
    as [[e ->]|(id & p & d & _ & _ & _ & _ & _ & _ & _ & ->)].
  - rewrite reject_eq.
    apply Inv_frame with (st := set_sent st0 (st0.(sent) ++ sends st0 ws e)); auto.
    + apply Inv_send; auto.
      intros s m Hin; apply sends_In in Hin as (-> & -> & Ho); split; auto.
      intros B HB; congruence.
    + intros s Hs; apply filter_In in Hs; tauto.
  - destruct (accept_facts st0 ws (KStr id))
      as (_ & Hq & Hq' & Hown & Hop & _ & Hcn & Hsent & Hwc & _ & _).
    set (st' := accept st0 ws (KStr id)) in *.
    assert (Ho' : forall s, owner st' s =
              match owner st0 s with Some v => Some v
                                    | None => if Nat.eqb s ws then Some (KStr id) else None end).
    { intro s; unfold owner at 1; rewrite Hown; apply owner_app. }
    assert (Hq0 : forall p, In p (m_values (match queue_of st0 (KStr id) with Some q => q | None => [] end)) ->
                  dispatched (KStr id) evs p).
    { intros p0 Hp0; destruct (queue_of st0 (KStr id)) as [q|] eqn:E; [|destruct Hp0].
      exact (inv_queue _ _ HI0 _ _ _ E Hp0). }
    constructor.
    + intros k' cs s Hin Hs; rewrite Ho'.
      destruct (Hwc k' cs s Hin Hs) as [[-> ->]|[cs0 [Hin0 Hs0]]].
      * now rewrite Hown0, Nat.eqb_refl.
      * now rewrite (inv_reg _ _ HI0 k' cs0 s Hin0 Hs0).
    + intros s k Hs; rewrite Hcn; rewrite Hown in Hs.
      apply in_app_or in Hs as [Hs|[E|[]]]; [exact (inv_owners _ _ HI0 s k Hs)|].
      injection E as <- _; exact Hws0.
    + intros s Hs; rewrite Hcn; rewrite Hop in Hs; exact (inv_opened _ _ HI0 s Hs).
    + intros s m Hs; rewrite Hcn; rewrite Hsent in Hs.
      apply in_app_or in Hs as [Hs|Hs]; [exact (inv_sent_conns _ _ HI0 s m Hs)|].
      apply in_flat_map in Hs as [p0 [_ Hs]]; apply sends_In in Hs as (-> & _ & _); exact Hws0.
    + intros k q p0 E Hp0; destruct (key_eqb_spec k (KStr id)) as [->|Hne].
      * rewrite Hq in E; injection E as <-; auto.
      * rewrite Hq' in E by auto; exact (inv_queue _ _ HI0 k q p0 E Hp0).
    + intros s m B Hs HB; rewrite Hsent in Hs; rewrite Ho' in HB.
      apply in_app_or in Hs as [Hs|Hs].
      * assert (Hne : s <> ws).
        { apply (not_conns_fresh st ws s Hf); exact (inv_sent_conns _ _ HI s m Hs). }
        destruct (owner st0 s) as [v|] eqn:Eo.
        -- injection HB as <-; exact (inv_sent _ _ HI0 s m v Hs Eo).
        -- rewrite (proj2 (Nat.eqb_neq s ws) Hne) in HB; discriminate.
      * apply in_flat_map in Hs as [p0 [Hp0 Hs]]; apply sends_In in Hs as (-> & -> & _).
        rewrite Hown0, Nat.eqb_refl in HB; injection HB as <-.
        exists p0; split; auto.
Qed.

Lemma Inv_on_message evs st ws raw : Inv evs st -> Inv evs (on_message st ws raw).
Proof.
  intro HI; unfold on_message.
  destruct (owner st ws) as [k|] eqn:Ho; [|exact HI].
  destruct raw as [v|]; [|exact HI].
  destruct (js_truthy v && prop_is_str v "type" "ack" && opt_truthy (get_prop v "alertId")).
  - destruct (queue_of st k) as [q|] eqn:Eq; [|exact HI].
    destruct (get_prop v "alertId") as [[| | |id| |]|]; try exact HI.
    destruct (m_has String.eqb q id); [|exact HI].
    apply Inv_pending; auto.
    intros k' q' p E Hp; unfold queue_of in E; simpl in E.
    destruct (key_eqb_spec k' k) as [->|Hne].
    + rewrite m_get_set_eq in E by auto with maps; injection E as <-.
      apply In_values_delete in Hp; exact (inv_queue _ _ HI k q p Eq Hp).
    + rewrite m_get_set_neq in E by auto with maps; exact (inv_queue _ _ HI k' q' p E Hp).
  - destruct (js_truthy v && prop_is_str v "type" "resend_pending"); [|exact HI].
    destruct (queue_of st k) as [q|] eqn:Eq; [|exact HI].
    rewrite send_all_eq; apply Inv_send; auto.
    intros s m Hin; apply in_flat_map in Hin as [p [Hp Hin]].
    apply sends_In in Hin as (-> & -> & Hop); split; auto.
    intros B HB; rewrite Ho in HB; injection HB as <-.
    exists p; split; auto; exact (inv_queue _ _ HI k q p Eq Hp).
Qed.

Lemma Inv_close evs st ws : Inv evs st -> Inv evs (on_close (ws_close st ws) ws).
Proof.
  intro HI.
  assert (HI1 : Inv evs (ws_close st ws)).
  { apply Inv_frame with (st := st); auto.
    intros s Hs; unfold ws_close in Hs; simpl in Hs; apply filter_In in Hs; tauto. }
  set (st1 := ws_close st ws) in *.
  unfold on_close.
  destruct (owner st1 ws) as [k|]; [|exact HI1].
  destruct (clients_of st1 k) as [set|] eqn:Ec; [|exact HI1].
  destruct (Nat.eqb (length (set_delete set ws)) 0); apply Inv_clients; auto.
  - intros k' cs s Hin Hs; apply In_m_delete in Hin; eauto.
  - intros k' cs s Hin Hs; apply In_m_set in Hin as [E|Hin]; [|eauto].
    injection E as -> ->; exists set; split.
    + exact (m_get_In _ key_eqb_spec _ _ _ Ec).
    + unfold set_delete in Hs; apply filter_In in Hs; tauto.
Qed.

Lemma Inv_tick evs st : Inv evs st -> Inv evs (retryTick st).
Proof.
  intro HI; rewrite retryTick_eq; apply Inv_send; auto.
  intros s m Hin; apply in_flat_map in Hin as [[k cs] [Hk Hin]].
  unfold entry_sends in Hin.
  destruct (queue_of st k) as [q|] eqn:Eq; [|destruct Hin].
  destruct (Nat.eqb (length q) 0); [destruct Hin|].
  apply in_flat_map in Hin as [p [Hp Hin]]; apply in_flat_map in Hin as [s0 [Hs0 Hin]].
  apply sends_In in Hin as (-> & -> & Hop); split; auto.
  intros B HB; rewrite (inv_reg _ _ HI k cs s0 Hk Hs0) in HB; injection HB as <-.
  exists p; split; auto; exact (inv_queue _ _ HI k q p Eq Hp).
Qed.

Lemma Inv_dispatch evs st k data id ts :
  Inv evs st -> Inv (evs ++ [EDispatch k data id ts]) (fst (sendToAide st k data id ts)).
Proof.
  intro HI0; pose proof (Inv_mono evs (EDispatch k data id ts) st HI0) as HI.
  set (evs' := evs ++ [EDispatch k data id ts]) in *.
  assert (Hd : dispatched k evs' (mk_payload data id ts)).
  { exists data, id, ts; split; auto; apply in_or_app; simpl; auto. }
  destruct (sendToAide_unfold st k data id ts) as [pend [Hq Hs]]; rewrite Hs.
  assert (HP : Inv evs' (set_pending st pend)).
  { apply Inv_pending; auto.
    intros k' q p E Hp; rewrite Hq in E.
    destruct (key_eqb_spec k' k) as [->|Hne].
    - injection E as <-; apply In_values_set in Hp as [->|Hp]; auto.
      destruct (queue_of st k) as [q0|] eqn:E0; [|destruct Hp].
      exact (inv_queue _ _ HI k q0 p E0 Hp).
    - exact (inv_queue _ _ HI k' q p E Hp). }
  destruct (clients_of st k) as [cs|] eqn:Ec; [|exact HP].
  destruct (Nat.eqb (length cs) 0); [exact HP|]; simpl.
  rewrite broadcast_eq; apply Inv_send; auto.
  intros s m Hin; apply in_flat_map in Hin as [s0 [Hs0 Hin]].
  apply sends_In in Hin as (-> & -> & Hop); split; auto.
  intros B HB.
  assert (Hk : owner st s0 = Some k).
  { exact (inv_reg _ _ HI0 k cs s0 (m_get_In _ key_eqb_spec _ _ _ Ec) Hs0). }
  change (owner st s0 = Some B) in HB; rewrite Hk in HB; injection HB as <-.
  eauto.
Qed.

Lemma Inv_step cfg evs st ev : Inv evs st -> Inv (evs ++ [ev]) (step cfg st ev).
Proof.
  intro HI; destruct ev as [ws url token aideId pwd lk|ws raw|ws| |k data id ts|ws].
  - destruct (existsb (Nat.eqb ws) st.(conns)) eqn:Ef.
    + simpl; rewrite Ef; now apply Inv_mono.
    + rewrite step_connect by exact Ef; apply Inv_mono, Inv_connection; auto.
  - apply Inv_mono, Inv_on_message; auto.
  - apply Inv_mono, Inv_close; auto.
  - apply Inv_mono, Inv_tick; auto.
  - apply Inv_dispatch; auto.
  - apply Inv_mono; apply Inv_frame with (st := st); auto.
Qed.

Lemma run_snoc cfg st evs e : run cfg st (evs ++ [e]) = step cfg (run cfg st evs) e.
Proof. unfold run; now rewrite fold_left_app. Qed.

Lemma Inv_run cfg evs : Inv evs (run cfg init evs).
Proof.
  induction evs as [|e evs IH] using rev_ind.
  - exact Inv_init.
  - rewrite run_snoc; now apply Inv_step.
Qed.

(** C9. After any sequence of events from the initial state, every object
    ever sent to a socket whose handshake registered it under caregiver
    [B] is the payload of a dispatch to [B] in that sequence: an alert
    dispatched only to another caregiver never reaches a session of [B]. *)
Theorem no_cross_caregiver_delivery cfg evs s m B :
  In (s, m) (run cfg init evs).(sent) -> owner (run cfg init evs) s = Some B ->
  exists data id ts, In (EDispatch B data id ts) evs /\ m = JObj (mk_payload data id ts).
Proof.
  intros Hs Ho.
  destruct (inv_sent _ _ (Inv_run cfg evs) s m B Hs Ho) as [p [-> (data & id & ts & Hin & ->)]].
  exists data, id, ts; auto.
Qed.

(** * Concrete runs *)

(** A caregiver record as the credential lookup returns it. *)
Definition cred_ex (pwd : string) : Lookup := LOk (Some (JObj [("mot_de_passe", JStr pwd)])).

(** A handshake [/?id=aide&pwd=pw&token=supercleAPI] on socket [ws]. *)
Definition connect_ex (ws : Sock) (aide pwd : string) : Event :=
  EConnect ws "/" (Some "supercleAPI") (Some aide) (Some pwd) (cred_ex pwd).

Definition alert_ex : Payload := [("message", JStr "chute")].

Definition ack_ex (id : string) : JVal := JObj [("type", JStr "ack"); ("alertId", JStr id)].

(** Caregiver "A" has an open socket 1 whose sends throw; caregiver "B"
    has a healthy socket 2 and one pending alert. *)
Definition st_two : St :=
  mkSt [(KStr "A", [1]); (KStr "B", [2])]
       [(KStr "B", [("a1", mk_payload alert_ex "a1" "t0")])]
       [1; 2] [1] [1; 2] [(1, KStr "A"); (2, KStr "B")] [] JNull 0.

Lemma pending_removed_only_by_ack_witness :
  (exists pre ws v post,
     [connect_ex 1 "A" "pw"; EMessage 1 (Some (ack_ex "a1"))] =
       pre ++ EMessage ws (Some v) :: post /\
     owner (run cfg_ex (step cfg_ex init (EDispatch (KStr "A") alert_ex "a1" "t0")) pre) ws
       = Some (KStr "A") /\ is_ack v "a1") /\
  pending_has (step cfg_ex init (EDispatch (KStr "B") alert_ex "b1" "t0")) (KStr "B") "b1" = true.
Proof.
  destruct (pending_removed_only_by_ack cfg_ex) as [H1 H2]; split.
  - apply H1; vm_compute; reflexivity.
  - apply H2.
Defined.

Lemma retry_tick_survives_failing_caregiver_witness :
  In (2, JObj (mk_payload alert_ex "a1" "t0")) (retryTick st_two).(sent).
Proof.
  apply (retry_tick_survives_failing_caregiver st_two (KStr "A") [1] 1 (KStr "B") [2]
           [("a1", mk_payload alert_ex "a1" "t0")] (mk_payload alert_ex "a1" "t0") 2);
    first [discriminate | vm_compute; auto].
Defined.

Lemma handshake_registers_and_flushes_witness :
  let st := step cfg_ex init (EDispatch (KStr "A") alert_ex "a1" "t0") in
  let q0 := match queue_of st (KStr "A") with Some q => q | None => [] end in
  let st' := step cfg_ex st (connect_ex 1 "A" "pw") in
  (exists set, clients_of st' (KStr "A") = Some set /\ In 1 set) /\
  owner st' 1 = Some (KStr "A") /\
  queue_of st' (KStr "A") = Some q0 /\
  st'.(sent) = st.(sent) ++ map (fun p => (1, JObj p)) (m_values q0).
Proof.
  intros st; apply (handshake_registers_and_flushes cfg_ex st 1 "/" (Some "supercleAPI") "A" "pw"
           [("mot_de_passe", JStr "pw")]);
    first [vm_compute; reflexivity | discriminate | right; reflexivity].
Defined.

Lemma handshake_id_first_and_token_gate_witness :
  (step cfg_ex init (EConnect 1 "/" (Some "supercleAPI") None (Some "pw") (cred_ex "pw"))).(sent)
    = [(1, err "Missing 'id' query param")] /\
  (step cfg_ex init (EConnect 1 "/?token=x" (Some "x") (Some "A") (Some "pw") (cred_ex "pw"))).(sent)
    = [(1, invalid_token cfg_ex (Some "x") "/?token=x")].
Proof.
  destruct (handshake_id_first_and_token_gate cfg_ex init 1 "/" eq_refl eq_refl) as [H1 _].
  destruct (handshake_id_first_and_token_gate cfg_ex init 1 "/?token=x" eq_refl eq_refl) as [_ H2].
  split.
  - exact (proj1 (H1 (Some "supercleAPI") None (Some "pw") (cred_ex "pw") eq_refl)).
  - refine (proj1 (H2 (Some "x") "A" "pw" (cred_ex "pw") _ _ _ _)); discriminate.
Defined.

Lemma handshake_rejection_changes_nothing_witness :
  let st' := step cfg_ex init (EConnect 1 "/" (Some "supercleAPI") (Some "A") (Some "pw")
                                 (cred_ex "other")) in
  st'.(wsClients) = [] /\ st'.(pendingAlerts) = [] /\ owner st' 1 = None.
Proof.
  apply (handshake_rejection_changes_nothing cfg_ex init 1 "/" (Some "supercleAPI") (Some "A")
           (Some "pw") (cred_ex "other")); [vm_compute; reflexivity | vm_compute; reflexivity |].
  right; right; right; right; right; right; right.
  exists (JObj [("mot_de_passe", JStr "other")]); split; [reflexivity|].
  intros p Hp; injection Hp as <-; discriminate.
Defined.

Lemma ack_idempotent_and_unknown_noop_witness :
  let st := run cfg_ex init [EDispatch (KStr "A") alert_ex "a1" "t0"; connect_ex 1 "A" "pw"] in
  let st1 := step cfg_ex st (EMessage 1 (Some (ack_ex "a1"))) in
  step cfg_ex st1 (EMessage 1 (Some (ack_ex "a1"))) = st1 /\ pending_has st1 (KStr "A") "a1" = false.
Proof.
  destruct (ack_idempotent_and_unknown_noop cfg_ex
              (run cfg_ex init [EDispatch (KStr "A") alert_ex "a1" "t0"; connect_ex 1 "A" "pw"])
              1 (KStr "A") (ack_ex "a1") "a1") as (H1 & H2 & _);
    [vm_compute; reflexivity | split; reflexivity | discriminate | split; assumption].
Defined.

Lemma failed_refetch_returns_empty_witness :
  fetchAllPatients cfg_ex st_cached 40000 PFThrows = (JArr [], st_cached) /\
  getAideForPatient cfg_ex st_cached 40000 PFThrows "12" = (None, st_cached).
Proof.
  apply failed_refetch_returns_empty.
  - right; vm_compute; discriminate.
  - discriminate.
  - left; reflexivity.
Defined.

Lemma mqtt_delivery_non_json_uncaught_witness :
  exists st', mqtt_message cfg_ex st_cached "alert/box/P1/delivery" "hello" 1000 PFThrows
                (fun _ => None) "a1" "t0" = Uncaught "SyntaxError" st'.
Proof.
  apply mqtt_delivery_non_json_uncaught; intros s _; reflexivity.
Defined.

Lemma no_cross_caregiver_delivery_witness :
  exists data id ts,
    In (EDispatch (KStr "A") data id ts)
       [EDispatch (KStr "A") alert_ex "a1" "t0"; connect_ex 1 "A" "pw"; connect_ex 2 "B" "pb"] /\
    JObj (mk_payload alert_ex "a1" "t0") = JObj (mk_payload data id ts).
Proof.
  apply (no_cross_caregiver_delivery cfg_ex
           [EDispatch (KStr "A") alert_ex "a1" "t0"; connect_ex 1 "A" "pw"; connect_ex 2 "B" "pb"] 1);
    vm_compute; auto.
Defined.

(** * Further properties of the alert core *)

(** ** Keys of the ordered maps *)

Section MapKeys.
Context {K V : Type} (eqb : K -> K -> bool)
        (eqb_spec : forall a b, reflect (a = b) (eqb a b)).

Lemma keys_set_In (m : list (K * V)) k v x :
  In x (map fst (m_set eqb m k v)) -> x = k \/ In x (map fst m).
Proof.
  intro H; apply in_map_iff in H as [[k1 v1] [<- H]].
  apply In_m_set in H as [E|E]; [injection E as -> _; auto|].
  right; now apply (in_map fst) in E.
Qed.

Lemma NoDup_keys_set (m : list (K * V)) k v :
  NoDup (map fst m) -> NoDup (map fst (m_set eqb m k v)).
Proof.
  induction m as [|[k' v'] r IH]; simpl; intro H.
  - constructor; [intros []|constructor].
  - inversion H as [|x l Hx Hr]; subst.
    destruct (eqb_spec k k') as [->|Hne]; simpl; constructor; auto.
    intro Hin; apply keys_set_In in Hin as [E|E]; [congruence|contradiction].
Qed.

Lemma NoDup_keys_delete (m : list (K * V)) k :
  NoDup (map fst m) -> NoDup (map fst (m_delete eqb m k)).
Proof.
  unfold m_delete; induction m as [|[k' v'] r IH]; simpl; intro H; auto.
  inversion H as [|x l Hx Hr]; subst.
  destruct (negb (eqb k k')); simpl; auto.
  constructor; auto.
  intro Hin; apply in_map_iff in Hin as [[k1 v1] [E Hin]]; simpl in E; subst k1.
  apply filter_In in Hin as [Hin _]; apply Hx; now apply (in_map fst) in Hin.
Qed.

Lemma m_set_set (m : list (K * V)) k u v : m_set eqb (m_set eqb m k u) k v = m_set eqb m k v.
Proof.
  induction m as [|[k' v'] r IH]; simpl.
  - now rewrite (eqb_refl _ eqb_spec).
  - destruct (eqb k k') eqn:E; simpl.
    + now rewrite (eqb_refl _ eqb_spec).
    + now rewrite E, IH.
Qed.
End MapKeys.

(** ** Sets of sockets *)

Lemma In_set_add s x : In x (set_add s x).
Proof.
  unfold set_add; destruct (existsb (Nat.eqb x) s) eqn:E.
  - apply existsb_exists in E as [y [Hy Hy']]; apply Nat.eqb_eq in Hy'; now subst.
  - apply in_or_app; simpl; auto.
Qed.

Lemma NoDup_snoc (s : list Sock) x : NoDup s -> ~ In x s -> NoDup (s ++ [x]).
Proof.
  induction s as [|a r IH]; simpl; intros H Hx.
  - constructor; [intros []|constructor].
  - inversion H as [|y l Ha Hr]; subst; constructor.
    + intro Hin; apply in_app_or in Hin as [Hin|[E|[]]]; [contradiction|subst; auto].
    + apply IH; auto.
Qed.

Lemma NoDup_set_add s x : NoDup s -> NoDup (set_add s x).
Proof.
  unfold set_add; destruct (existsb (Nat.eqb x) s) eqn:E; auto.
  intro H; apply NoDup_snoc; auto.
  intro Hin; assert (existsb (Nat.eqb x) s = true)
    by (apply existsb_exists; exists x; split; auto; apply Nat.eqb_refl).
  congruence.
Qed.

(** ** The registry after each operation *)

Lemma accept_wsClients st ws k :
  (accept st ws k).(wsClients) =
  m_set key_eqb st.(wsClients) k
        (set_add (match clients_of st k with Some s => s | None => [] end) ws).
Proof.
  unfold accept, clients_of.
  destruct (m_has key_eqb (wsClients st) k) eqn:Ea; cbn [wsClients set_wsClients];
    lazymatch goal with
    |- context [m_has key_eqb (pendingAlerts ?s) k] => destruct (m_has key_eqb (pendingAlerts s) k)
    end; cbn [wsClients set_wsClients set_pending set_owners];
    rewrite send_all_eq; cbn [wsClients set_sent set_pending set_owners set_wsClients].
  - reflexivity.
  - reflexivity.
  - rewrite m_get_set_eq by auto with maps; rewrite m_set_set by auto with maps.
    unfold m_has in Ea; destruct (m_get key_eqb (wsClients st) k); [discriminate|reflexivity].
  - rewrite m_get_set_eq by auto with maps; rewrite m_set_set by auto with maps.
    unfold m_has in Ea; destruct (m_get key_eqb (wsClients st) k); [discriminate|reflexivity].
Qed.

Lemma on_message_wsClients st ws raw : (on_message st ws raw).(wsClients) = st.(wsClients).
Proof.
  unfold on_message.
  destruct (owner st ws) as [k|]; [|reflexivity].
  destruct raw as [v|]; [|reflexivity].
  destruct (_ && _ && _).
  - destruct (queue_of st k); [|reflexivity].
    destruct (get_prop v "alertId") as [[| | |id| |]|]; try reflexivity.
    destruct (m_has String.eqb q id); reflexivity.
  - destruct (_ && _); [|reflexivity].
    destruct (queue_of st k); [|reflexivity].
    rewrite send_all_eq; reflexivity.
Qed.

Lemma sendToAide_wsClients st k data id ts :
  (fst (sendToAide st k data id ts)).(wsClients) = st.(wsClients).
Proof.
  destruct (sendToAide_unfold st k data id ts) as [pend [_ ->]].
  destruct (clients_of st k) as [cs|]; [destruct (Nat.eqb (length cs) 0)|]; simpl;
    rewrite ?broadcast_eq; reflexivity.
Qed.

(** What the registry looks like in every reachable state. *)
Definition reg_ok (st : St) : Prop :=
  NoDup (map fst st.(wsClients)) /\
  forall k cs, In (k, cs) st.(wsClients) -> (exists id, k = KStr id) /\ cs <> [] /\ NoDup cs.

Lemma reg_ok_frame st st' : st'.(wsClients) = st.(wsClients) -> reg_ok st -> reg_ok st'.
Proof. unfold reg_ok; now intros ->. Qed.

Lemma reg_ok_step cfg st ev : reg_ok st -> reg_ok (step cfg st ev).
Proof.
  intro HR; destruct ev as [ws url token aideId pwd lk|ws raw|ws| |k data id ts|ws].
  - destruct (existsb (Nat.eqb ws) st.(conns)) eqn:Ef; [simpl; now rewrite Ef|].
    rewrite step_connect by exact Ef.
    destruct (connection_cases cfg (connect_state st ws) ws url token aideId pwd lk)
      as [[e ->]|(id & p & d & _ & _ & _ & _ & _ & _ & _ & ->)].
    + apply (reg_ok_frame st); [rewrite reject_eq; reflexivity|exact HR].
    + destruct HR as [HN HE]; split; rewrite accept_wsClients; cbn [wsClients connect_state set_opened set_conns].
      * apply NoDup_keys_set; auto with maps.
      * intros k cs Hin; apply In_m_set in Hin as [E|Hin]; [|now apply HE].
        injection E as -> ->; split; [eauto|split].
        -- intro E; pose proof (In_set_add (match clients_of (connect_state st ws) (KStr id) with
                                            | Some s => s | None => [] end) ws) as H.
           rewrite E in H; destruct H.
        -- apply NoDup_set_add; unfold clients_of; cbn [wsClients connect_state set_opened set_conns].
           destruct (m_get key_eqb (wsClients st) (KStr id)) as [s|] eqn:Eg; [|constructor].
           apply (m_get_In _ key_eqb_spec) in Eg; apply (HE _ _ Eg).
  - apply (reg_ok_frame st); [apply on_message_wsClients|exact HR].
  - simpl; unfold on_close.
    assert (HR1 : reg_ok (ws_close st ws)) by (apply (reg_ok_frame st); [reflexivity|exact HR]).
    destruct (owner (ws_close st ws) ws) as [k|]; [|exact HR1].
    destruct (clients_of (ws_close st ws) k) as [set|] eqn:Ec; [|exact HR1].
    destruct HR1 as [HN HE].
    destruct (Nat.eqb (length (set_delete set ws)) 0) eqn:El; split; simpl.
    + apply NoDup_keys_delete; auto with maps.
    + intros k' cs Hin; apply In_m_delete in Hin; auto.
    + apply NoDup_keys_set; auto with maps.
    + intros k' cs Hin; apply In_m_set in Hin as [E|Hin]; [|now apply HE].
      injection E as -> ->.
      apply (m_get_In _ key_eqb_spec) in Ec; destruct (HE _ _ Ec) as (Hk & _ & Hnd).
      split; [exact Hk|split].
      * intro E; rewrite E in El; discriminate.
      * apply NoDup_filter; exact Hnd.
  - apply (reg_ok_frame st); [simpl; rewrite retryTick_eq; reflexivity|exact HR].
  - apply (reg_ok_frame st); [apply sendToAide_wsClients|exact HR].
  - apply (reg_ok_frame st); [reflexivity|exact HR].
Qed.

Lemma reg_ok_run cfg evs : forall st, reg_ok st -> reg_ok (run cfg st evs).
Proof.
  induction evs as [|e r IH]; intros st H; simpl; auto.
  apply IH, reg_ok_step, H.
Qed.

Lemma reg_ok_init : reg_ok init.
Proof. split; [constructor|intros k cs []]. Qed.

(** X1. The registry of every reachable state: each caregiver appears once,
    under a string id (the [id] query parameter of its handshake), with a
    non-empty set of sockets without repetition.  So [activeAides] of
    [/api/health] lists each caregiver once, and only caregivers with a
    registered socket. *)
Theorem registry_well_formed cfg evs :
  let st := run cfg init evs in
  NoDup (map fst st.(wsClients)) /\
  (forall k cs, In (k, cs) st.(wsClients) -> (exists id, k = KStr id) /\ cs <> [] /\ NoDup cs).
Proof. exact (reg_ok_run cfg evs init reg_ok_init). Qed.

(** X2. In every reachable state, [sendToAide] with a caregiver id that is not
    a string (a number, a boolean or [null], as a request body or the
    directory's [fk_aide_soignant] may give) queues the alert under that
    key, returns [false] and sends nothing: no session is ever registered
    under such a key. *)
Theorem non_string_id_never_delivered cfg evs k data id ts :
  (forall s, k <> KStr s) ->
  let st := run cfg init evs in
  let r := sendToAide st k data id ts in
  snd r = false /\ (fst r).(sent) = st.(sent) /\
  queue_of (fst r) k =
    Some (m_set String.eqb (match queue_of st k with Some q => q | None => [] end) id
                (mk_payload data id ts)).
Proof.
  intros Hk st r.
  destruct (reg_ok_run cfg evs init reg_ok_init) as [_ HE]; fold st in HE.
  assert (Hc : clients_of st k = None).
  { unfold clients_of; apply m_get_not_in; [exact key_eqb_spec|].
    intros cs Hin; destruct (HE _ _ Hin) as [[s Hs] _]; exact (Hk s Hs). }
  destruct (sendToAide_queues st k data id ts) as [Hq _].
  destruct (sendToAide_unfold st k data id ts) as [pend [_ Hs]].
  subst r; rewrite Hc in Hs.
  split; [rewrite Hs; reflexivity|split; [rewrite Hs; reflexivity|exact Hq]].
Qed.

(** X3. In every reachable state a socket belongs to at most one caregiver's
    set in [wsClients]. *)
Theorem socket_in_one_caregiver_set cfg evs k1 k2 cs1 cs2 s :
  In (k1, cs1) (run cfg init evs).(wsClients) -> In s cs1 ->
  In (k2, cs2) (run cfg init evs).(wsClients) -> In s cs2 -> k1 = k2.
Proof.
  intros H1 Hs1 H2 Hs2.
  pose proof (inv_reg _ _ (Inv_run cfg evs) _ _ _ H1 Hs1) as E1.
  pose proof (inv_reg _ _ (Inv_run cfg evs) _ _ _ H2 Hs2) as E2.
  congruence.
Qed.

Lemma is_open_ws_close st ws : is_open (ws_close st ws) ws = false.
Proof.
  unfold is_open, ws_close; simpl.
  apply Bool.not_true_iff_false; intro H.
  apply existsb_exists in H as [x [Hx Hx']]; apply Nat.eqb_eq in Hx'; subst x.
  apply filter_In in Hx as [_ Hx]; rewrite Nat.eqb_refl in Hx; discriminate.
Qed.

(** X4. Closing an authenticated socket removes it from its caregiver's set,
    and the caregiver from [wsClients] when that set becomes empty; the
    caregiver's pending alerts stay queued, and no other caregiver's
    registration changes. *)
Theorem close_unregisters_keeps_alerts cfg st ws k set :
  owner st ws = Some k -> clients_of st k = Some set ->
  let st' := step cfg st (EClose ws) in
  st'.(pendingAlerts) = st.(pendingAlerts) /\
  clients_of st' k =
    (if Nat.eqb (length (set_delete set ws)) 0 then None else Some (set_delete set ws)) /\
  (forall k', k' <> k -> clients_of st' k' = clients_of st k') /\
  is_open st' ws = false.
Proof.
  intros Ho Hc st'.
  assert (Ho' : owner (ws_close st ws) ws = Some k) by exact Ho.
  assert (Hc' : clients_of (ws_close st ws) k = Some set) by exact Hc.
  subst st'; simpl; unfold on_close; rewrite Ho', Hc'.
  pose proof (is_open_ws_close st ws) as Hop.
  destruct (Nat.eqb (length (set_delete set ws)) 0); unfold clients_of; simpl.
  - split; [reflexivity|split; [apply m_get_delete_eq; auto with maps|split; [|exact Hop]]].
    intros k' Hne; apply m_get_delete_neq; auto with maps.
  - split; [reflexivity|split; [apply m_get_set_eq; auto with maps|split; [|exact Hop]]].
    intros k' Hne; apply m_get_set_neq; auto with maps.
Qed.

(** X5. A [{type: "resend_pending"}] message on an authenticated, OPEN socket
    sends that socket, and only it, every alert pending for its caregiver,
    in queue order, and changes neither the store nor the registry. *)
Theorem resend_pending_replays_queue cfg st ws k q v :
  owner st ws = Some k -> queue_of st k = Some q ->
  prop_is_str v "type" "resend_pending" = true ->
  is_open st ws = true -> is_broken st ws = false ->
  let st' := step cfg st (EMessage ws (Some v)) in
  st'.(sent) = st.(sent) ++ map (fun p => (ws, JObj p)) (m_values q) /\
  st'.(pendingAlerts) = st.(pendingAlerts) /\ st'.(wsClients) = st.(wsClients).
Proof.
  intros Ho Hq Hr Hop Hb st'.
  assert (Hack : prop_is_str v "type" "ack" = false).
  { unfold prop_is_str in *; destruct (get_prop v "type") as [[| | |t| |]|]; try discriminate.
    apply String.eqb_eq in Hr; subst t; reflexivity. }
  assert (Ht : js_truthy v = true).
  { unfold prop_is_str in Hr; destruct v; simpl in Hr; try discriminate; reflexivity. }
  subst st'; simpl; unfold on_message; rewrite Ho, Ht, Hack, Hr; simpl; rewrite Hq.
  rewrite send_all_eq; simpl; rewrite sends_open by assumption; auto.
Qed.

(** ** Nothing reaches a closed socket *)

Lemma filter_sent_other ws (l new : list (Sock * JVal)) :
  (forall s m, In (s, m) new -> s <> ws) ->
  filter (fun e => Nat.eqb (fst e) ws) (l ++ new) = filter (fun e => Nat.eqb (fst e) ws) l.
Proof.
  intro H; induction l as [|x l IH]; simpl; [|rewrite IH; reflexivity].
  induction new as [|[s m] r IHr]; simpl; auto.
  rewrite (proj2 (Nat.eqb_neq s ws)) by (apply (H s m); simpl; auto).
  apply IHr; intros; eapply H; simpl; eauto.
Qed.

(** A step that only sends to OPEN sockets of the state it starts in. *)
Definition quiet (st st' : St) : Prop :=
  st'.(conns) = st.(conns) /\ (forall s, In s st'.(opened) -> In s st.(opened)) /\
  exists new, st'.(sent) = st.(sent) ++ new /\ forall s m, In (s, m) new -> In s st.(opened).

Lemma quiet_send st new :
  (forall s m, In (s, m) new -> In s st.(opened)) -> quiet st (set_sent st (st.(sent) ++ new)).
Proof. intro H; split; [reflexivity|split; [auto|exists new; auto]]. Qed.

Lemma quiet_refl st : quiet st st.
Proof. split; [reflexivity|split; [auto|exists []; rewrite app_nil_r; split; [reflexivity|intros s m []]]]. Qed.

Lemma quiet_on_message st ws raw : quiet st (on_message st ws raw).
Proof.
  unfold on_message.
  destruct (owner st ws) as [k|]; [|apply quiet_refl].
  destruct raw as [v|]; [|apply quiet_refl].
  destruct (_ && _ && _).
  - destruct (queue_of st k); [|apply quiet_refl].
    destruct (get_prop v "alertId") as [[| | |id| |]|]; try apply quiet_refl.
    destruct (m_has String.eqb q id); [|apply quiet_refl].
    split; [reflexivity|split; [auto|exists []; rewrite app_nil_r; split; [reflexivity|intros s m []]]].
  - destruct (_ && _); [|apply quiet_refl].
    destruct (queue_of st k); [|apply quiet_refl].
    rewrite send_all_eq; apply quiet_send.
    intros s m Hin; apply in_flat_map in Hin as [p [_ Hin]]; apply sends_In in Hin as (-> & _ & ?); assumption.
Qed.

Lemma on_close_frame st ws :
  (on_close st ws).(conns) = st.(conns) /\ (on_close st ws).(opened) = st.(opened) /\
  (on_close st ws).(sent) = st.(sent).
Proof.
  unfold on_close; destruct (owner st ws); [|auto].
  destruct (clients_of st k); [|auto].
  destruct (Nat.eqb _ 0); auto.
Qed.

Lemma quiet_step cfg st ev :
  (forall ws url token aideId pwd lk, ev <> EConnect ws url token aideId pwd lk) ->
  quiet st (step cfg st ev).
Proof.
  intro Hn; destruct ev as [ws url token aideId pwd lk|ws raw|ws| |k data id ts|ws].
  - exfalso; eapply Hn; reflexivity.
  - apply quiet_on_message.
  - simpl; destruct (on_close_frame (ws_close st ws) ws) as (E1 & E2 & E3).
    split; [exact E1|split].
    + intros s Hs; rewrite E2 in Hs; unfold ws_close in Hs; simpl in Hs.
      apply filter_In in Hs; tauto.
    + exists []; rewrite E3, app_nil_r; split; [reflexivity|intros s m []].
  - simpl; rewrite retryTick_eq; apply quiet_send.
    intros s m Hin; apply in_flat_map in Hin as [[k cs] [_ Hin]].
    unfold entry_sends in Hin; destruct (queue_of st k); [|destruct Hin].
    destruct (Nat.eqb _ 0); [destruct Hin|].
    apply in_flat_map in Hin as [p [_ Hin]]; apply in_flat_map in Hin as [s0 [_ Hin]].
    apply sends_In in Hin as (-> & _ & ?); assumption.
  - simpl; destruct (sendToAide_unfold st k data id ts) as [pend [_ ->]].
    destruct (clients_of st k) as [cs|]; [destruct (Nat.eqb (length cs) 0)|]; simpl.
    + split; [reflexivity|split; [auto|exists []; rewrite app_nil_r; split; [reflexivity|intros s m []]]].
    + rewrite broadcast_eq; split; [reflexivity|split; [auto|eexists; split; [reflexivity|]]].
      intros s m Hin; apply in_flat_map in Hin as [s0 [_ Hin]]; apply sends_In in Hin as (-> & _ & ?); assumption.
    + split; [reflexivity|split; [auto|exists []; rewrite app_nil_r; split; [reflexivity|intros s m []]]].
  - split; [reflexivity|split; [auto|exists []; rewrite app_nil_r; split; [reflexivity|intros s m []]]].
Qed.

Lemma step_closed cfg st ev ws :
  In ws st.(conns) -> ~ In ws st.(opened) ->
  In ws (step cfg st ev).(conns) /\ ~ In ws (step cfg st ev).(opened) /\
  filter (fun e => Nat.eqb (fst e) ws) (step cfg st ev).(sent) =
  filter (fun e => Nat.eqb (fst e) ws) st.(sent).
Proof.
  intros Hc Ho.
  destruct ev as [ws' url token aideId pwd lk|ws' raw|ws'| |k data id ts|ws'] eqn:Eev;
    [|rewrite <- Eev; destruct (quiet_step cfg st ev) as (E1 & E2 & new & E3 & E4);
      [intros; rewrite Eev; discriminate|];
      rewrite E1, E3; split; [exact Hc|split; [intro H; apply Ho, E2, H|]];
      apply filter_sent_other; intros s m Hin ->; apply Ho; eapply E4; eauto ..].
  destruct (existsb (Nat.eqb ws') st.(conns)) eqn:Ef; [simpl; rewrite Ef; auto|].
  rewrite step_connect by exact Ef.
  assert (Hne : ws <> ws') by (intro E; subst; apply (not_conns_fresh st ws' ws' Ef Hc); reflexivity).
  assert (Hc0 : In ws (connect_state st ws').(conns)) by (simpl; apply in_or_app; auto).
  assert (Ho0 : ~ In ws (connect_state st ws').(opened)).
  { simpl; intro H; apply in_app_or in H as [H|[H|[]]]; [contradiction|congruence]. }
  destruct (connection_cases cfg (connect_state st ws') ws' url token aideId pwd lk)
    as [[e ->]|(id & p & d & _ & _ & _ & _ & _ & _ & _ & ->)].
  - rewrite reject_eq; simpl; split; [apply in_or_app; auto|split].
    + intro H; apply filter_In in H as [H _]; apply Ho0, H.
    + apply filter_sent_other; intros s m Hin; apply sends_In in Hin as (-> & _); auto.
  - destruct (accept_facts (connect_state st ws') ws' (KStr id))
      as (_ & _ & _ & _ & Hop & _ & Hcn & Hsent & _).
    rewrite Hop, Hcn, Hsent; split; [exact Hc0|split; [exact Ho0|]].
    apply filter_sent_other; intros s m Hin.
    apply in_flat_map in Hin as [p0 [_ Hin]]; apply sends_In in Hin as (-> & _); auto.
Qed.

(** X6. Once a socket that has connected is closed, no event ever sends it
    anything again: the log of what it was sent stops growing. *)
Theorem closed_socket_receives_nothing cfg st ws evs :
  In ws st.(conns) ->
  filter (fun e => Nat.eqb (fst e) ws) (run cfg st (EClose ws :: evs)).(sent) =
  filter (fun e => Nat.eqb (fst e) ws) st.(sent).
Proof.
  intro Hc; simpl.
  destruct (on_close_frame (ws_close st ws) ws) as (E1 & E2 & E3).
  set (st1 := on_close (ws_close st ws) ws) in *.
  assert (Hc1 : In ws st1.(conns)) by (rewrite E1; exact Hc).
  assert (Ho1 : ~ In ws st1.(opened)).
  { rewrite E2; unfold ws_close; simpl; intro H; apply filter_In in H as [_ H].
    rewrite Nat.eqb_refl in H; discriminate. }
  assert (Hs1 : filter (fun e => Nat.eqb (fst e) ws) st1.(sent) =
                filter (fun e => Nat.eqb (fst e) ws) st.(sent)) by (rewrite E3; reflexivity).
  rewrite <- Hs1; clearbody st1; clear E1 E2 E3 Hs1.
  revert st1 Hc1 Ho1; induction evs as [|e r IH]; intros st1 Hc1 Ho1; simpl; auto.
  destruct (step_closed cfg st1 e ws Hc1 Ho1) as (H1 & H2 & H3).
  rewrite IH; auto.
Qed.

Lemma non_string_id_never_delivered_witness :
  let st := run cfg_ex init [connect_ex 1 "A" "pw"] in
  snd (sendToAide st (KNum 5) alert_ex "a1" "t0") = false /\
  (fst (sendToAide st (KNum 5) alert_ex "a1" "t0")).(sent) = st.(sent) /\
  queue_of (fst (sendToAide st (KNum 5) alert_ex "a1" "t0")) (KNum 5) =
    Some (m_set String.eqb [] "a1" (mk_payload alert_ex "a1" "t0")).
Proof.
  apply (non_string_id_never_delivered cfg_ex [connect_ex 1 "A" "pw"] (KNum 5)); discriminate.
Defined.

Lemma socket_in_one_caregiver_set_witness :
  In (KStr "A", [1]) (run cfg_ex init [connect_ex 1 "A" "pw"]).(wsClients) /\ KStr "A" = KStr "A".
Proof.
  assert (H : In (KStr "A", [1]) (run cfg_ex init [connect_ex 1 "A" "pw"]).(wsClients))
    by (vm_compute; auto).
  split; [exact H|].
  apply (socket_in_one_caregiver_set cfg_ex [connect_ex 1 "A" "pw"] _ _ [1] [1] 1 H);
    [simpl; auto | exact H | simpl; auto].
Defined.

Lemma close_unregisters_keeps_alerts_witness :
  let st := run cfg_ex init [EDispatch (KStr "A") alert_ex "a1" "t0"; connect_ex 1 "A" "pw"] in
  let st' := step cfg_ex st (EClose 1) in
  st'.(pendingAlerts) = st.(pendingAlerts) /\ clients_of st' (KStr "A") = None /\
  (forall k', k' <> KStr "A" -> clients_of st' k' = clients_of st k') /\ is_open st' 1 = false.
Proof.
  apply (close_unregisters_keeps_alerts cfg_ex _ 1 (KStr "A") [1]); vm_compute; reflexivity.
Defined.

Lemma resend_pending_replays_queue_witness :
  let st := run cfg_ex init [EDispatch (KStr "A") alert_ex "a1" "t0"; connect_ex 1 "A" "pw"] in
  let st' := step cfg_ex st (EMessage 1 (Some (JObj [("type", JStr "resend_pending")]))) in
  st'.(sent) = st.(sent) ++ [(1, JObj (mk_payload alert_ex "a1" "t0"))] /\
  st'.(pendingAlerts) = st.(pendingAlerts) /\ st'.(wsClients) = st.(wsClients).
Proof.
  apply (resend_pending_replays_queue cfg_ex _ 1 (KStr "A") [("a1", mk_payload alert_ex "a1" "t0")]);
    vm_compute; reflexivity.
Defined.

Lemma closed_socket_receives_nothing_witness :
  let st := run cfg_ex init [connect_ex 1 "A" "pw"] in
  filter (fun e => Nat.eqb (fst e) 1)
    (run cfg_ex st [EClose 1; EDispatch (KStr "A") alert_ex "a1" "t0"; ETick]).(sent) =
  filter (fun e => Nat.eqb (fst e) 1) st.(sent).
Proof.
  apply (closed_socket_receives_nothing cfg_ex _ 1); vm_compute; auto.
Defined.


(** X7. After [fetchAllPatients] refetches the directory (stale or empty
    cache, [API_BASE] set) and gets [d] at time [t], it returns [d]; a
    later call at [now'] returns [d] again without fetching when [d] is
    truthy and [now' - t] is under the 30 s TTL, and otherwise fetches
    again: a falsy directory ([null], [0], [""], [false]) is never served
    from the cache. *)
Theorem refetched_directory_cache cfg st now d t now' f :
  cfg.(API_BASE) <> "" ->
  js_truthy st.(patientsCache) && Z.ltb (now - st.(patientsCacheTs)) PATIENTS_CACHE_TTL_MS = false ->
  let r := fetchAllPatients cfg st now (PFJson (Some d) t) in
  fst r = d /\
  fetchAllPatients cfg (snd r) now' f =
    if js_truthy d && Z.ltb (now' - t) PATIENTS_CACHE_TTL_MS then (d, snd r)
    else match f with
         | PFJson (Some d') t' => (d', set_cache (snd r) d' t')
         | _ => (JArr [], snd r)
         end.
Proof.
  intros Hb Hs r; subst r; apply String.eqb_neq in Hb.
  assert (E : fetchAllPatients cfg st now (PFJson (Some d) t) = (d, set_cache st d t))
    by (unfold fetchAllPatients; rewrite Hs, Hb; reflexivity).
  rewrite E; simpl; split; [reflexivity|].
  unfold fetchAllPatients; simpl.
  destruct (js_truthy d && _); [reflexivity|].
  rewrite Hb; destruct f as [|[d'|] t']; reflexivity.
Qed.



Lemma null_or_not (x : JVal) : x = JNull \/ x <> JNull.
Proof. destruct x; [left; reflexivity|right; discriminate ..]. Qed.

Lemma find_patient_cons_nn x r pid :
  x <> JNull ->
  find_patient (x :: r) pid =
    if String.eqb (js_String (get_prop x "id_patient")) pid then Some (Some x)
    else find_patient r pid.
Proof. intro H; destruct x; [congruence|..]; reflexivity. Qed.


Lemma find_patient_none l pid :
  find_patient l pid = None <->
  exists pre post, l = pre ++ JNull :: post /\ Forall (skipped pid) pre.
Proof.
  induction l as [|x r IH].
  - split; [discriminate|]. intros (pre & post & E & _); destruct pre; discriminate.
  - destruct (null_or_not x) as [->|Hx].
    + split; [intros _; exists [], r; auto|reflexivity].
    + rewrite find_patient_cons_nn by exact Hx.
      destruct (String.eqb (js_String (get_prop x "id_patient")) pid) eqn:Em.
      * apply String.eqb_eq in Em; split; [discriminate|].
        intros (pre & post & E & HF).
        destruct pre as [|y pre]; simpl in E; injection E as E1 E2; [congruence|].
        subst y; inversion HF as [|? ? [_ Hy] _]; congruence.
      * apply String.eqb_neq in Em; rewrite IH; split.
        -- intros (pre & post & E & HF); exists (x :: pre), post; subst r; split; auto.
           constructor; [split|]; auto.
        -- intros (pre & post & E & HF).
           destruct pre as [|y pre]; simpl in E; injection E as E1 E2; [congruence|].
           subst y; inversion HF; subst; exists pre, post; auto.
Qed.


(** X9. A [null] record of the directory before the patient's record makes
    [getAideForPatient] return [null] (the [find] callback throws and the
    [catch] answers [null]), whatever follows it. *)
Theorem getAideForPatient_null_record cfg st now f pid pre post :
  fst (fetchAllPatients cfg st now f) = JArr (pre ++ JNull :: post) ->
  Forall (skipped pid) pre ->
  fst (getAideForPatient cfg st now f pid) = None.
Proof.
  intros E HF; unfold getAideForPatient.
  destruct (fetchAllPatients cfg st now f) as [pats st1]; simpl in E; subst pats.
  rewrite (proj2 (find_patient_none _ pid)) by (exists pre, post; auto); reflexivity.
Qed.





Lemma mqtt_message_eq cfg st topic message now f parse alertId timestamp :
  mqtt_message cfg st topic message now f parse alertId timestamp =
  match topic_parts topic with
  | p0 :: p1 :: patientId :: ((_ :: _) as rest) =>
      if String.eqb p0 "alert" && String.eqb p1 "box" then
        let alertType := String.concat "/" rest in
        let (aideId, st1) := getAideForPatient cfg st now f patientId in
        let payload ty : Payload :=
          [("type", JStr ty); ("patientId", JStr patientId); ("alertType", JStr alertType);
           ("message", JStr message); ("topic", JStr topic)] in
        let dispatch ty :=
          match aideId with
          | Some v =>
              match key_of v with
              | Some k => Done (fst (sendToAide st1 k (payload ty) alertId timestamp))
              | None => Done st1
              end
          | None => Done st1
          end in
        if String.eqb alertType "mecanic" then Done st1
        else if String.eqb alertType "seuilmedoc" then dispatch "warning"
        else if String.eqb alertType "plusmedoc" then dispatch "critical"
        else if String.eqb alertType "delivery" then
          match parse message with
          | None => Uncaught "SyntaxError" st1
          | Some JNull => Uncaught "TypeError" st1
          | Some _ => Done st1
          end
        else if String.eqb alertType "getprescription" then dispatch "request"
        else if String.eqb alertType "getmedocs" then dispatch "request"
        else if String.eqb alertType "createclient" then dispatch "request"
        else Done st1
      else Done st
  | _ => Done st
  end.
Proof. reflexivity. Qed.

Ltac mqtt_open H tac :=
  rewrite mqtt_message_eq in H;
  lazymatch type of H with context [match topic_parts ?t with _ => _ end] =>
    let Ep := fresh "Ep" in
    destruct (topic_parts t) as [|p0 [|p1 [|pid [|r0 rest]]]] eqn:Ep end;
  [tac ..|];
  lazymatch type of H with context [if String.eqb ?p0 "alert" && String.eqb ?p1 "box" then _ else _] =>
    let E0 := fresh "E0" in let E1 := fresh "E1" in
    destruct (String.eqb p0 "alert") eqn:E0; destruct (String.eqb p1 "box") eqn:E1;
    [apply String.eqb_eq in E0, E1; subst p0 p1|tac ..] end;
  lazymatch type of H with context [String.concat "/" ?r] =>
    let ET := fresh "ET" in remember (String.concat "/" r) as T eqn:ET end;
  lazymatch type of H with context [getAideForPatient ?c ?s ?n ?f ?p] =>
    let Eg := fresh "Eg" in destruct (getAideForPatient c s n f p) as [aideId st1] eqn:Eg end;
  cbv beta iota zeta in H; cbn [andb] in H.

Ltac mqtt_split H :=
  repeat match type of H with
  | context [if String.eqb ?a ?b then _ else _] =>
      let E := fresh "E" in destruct (String.eqb a b) eqn:E
  | context [match ?a with Some _ => _ | None => _ end] =>
      lazymatch a with
      | key_of ?v => let E := fresh "Ek" in destruct (key_of v) as [k|] eqn:E
      | _ => let E := fresh "Eo" in destruct a as [?v|] eqn:E
      end
  | context [match ?x with JNull => _ | _ => _ end] => destruct x
  end.


Definition core_eq (a b : St) : Prop :=
  a.(wsClients) = b.(wsClients) /\ a.(pendingAlerts) = b.(pendingAlerts) /\
  a.(opened) = b.(opened) /\ a.(broken) = b.(broken) /\ a.(conns) = b.(conns) /\
  a.(owners) = b.(owners) /\ a.(sent) = b.(sent).

Lemma fetch_core cfg st now f : core_eq (snd (fetchAllPatients cfg st now f)) st.
Proof.
  unfold fetchAllPatients.
  destruct (_ && _); [|destruct (String.eqb _ _); [|destruct f as [|[d|] t]]];
    repeat split.
Qed.

Lemma getAide_core cfg st now f pid : core_eq (snd (getAideForPatient cfg st now f pid)) st.
Proof.
  unfold getAideForPatient.
  pose proof (fetch_core cfg st now f) as Hc.
  destruct (fetchAllPatients cfg st now f) as [pats st1]; simpl in Hc.
  destruct pats as [| | | | l |]; try exact Hc.
  destruct (find_patient l pid) as [[p|]|]; try exact Hc.
  destruct (get_prop p "fk_aide_soignant") as [w|]; [destruct (js_truthy w)|]; exact Hc.
Qed.

Lemma sendToAide_sessions st k data id ts :
  let st' := fst (sendToAide st k data id ts) in
  st'.(wsClients) = st.(wsClients) /\ st'.(opened) = st.(opened) /\
  st'.(broken) = st.(broken) /\ st'.(conns) = st.(conns) /\ st'.(owners) = st.(owners).
Proof.
  destruct (sendToAide_unfold st k data id ts) as [pend [_ ->]].
  destruct (clients_of st k) as [cs|]; [destruct (Nat.eqb (length cs) 0)|]; simpl;
    rewrite ?broadcast_eq; repeat split.
Qed.

(** X11. Whatever the topic and the message, the MQTT handler never changes
    the WebSocket sessions: the registry [wsClients], the sockets' state
    and their handlers stay as they are, even when the handler fails with
    an uncaught exception. *)
Theorem mqtt_never_touches_sessions cfg st topic message now f parse alertId timestamp :
  let st' := outcome_st (mqtt_message cfg st topic message now f parse alertId timestamp) in
  st'.(wsClients) = st.(wsClients) /\ st'.(opened) = st.(opened) /\
  st'.(broken) = st.(broken) /\ st'.(conns) = st.(conns) /\ st'.(owners) = st.(owners).
Proof.
  unfold outcome_st.
  destruct (mqtt_message cfg st topic message now f parse alertId timestamp) as [s|e s] eqn:H;
    mqtt_open H ltac:(first [discriminate | injection H as <-; repeat split]);
    pose proof (getAide_core cfg st now f pid) as Hc; rewrite Eg in Hc; simpl in Hc;
    destruct Hc as (C1 & C2 & C3 & C4 & C5 & C6 & C7);
    mqtt_split H; try discriminate; injection H; intros; subst s;
    repeat split; try assumption;
    lazymatch goal with |- context [sendToAide ?a ?b ?c ?d ?e] =>
      destruct (sendToAide_sessions a b c d e) as (S1 & S2 & S3 & S4 & S5) end;
    congruence.
Qed.




(** X13. For the five dispatching alert types, when [getAideForPatient] finds
    caregiver [k], the handler queues the alert for [k] (through
    [sendToAide]) with the [type] the table gives ([warning] for
    [seuilmedoc], [critical] for [plusmedoc], [request] for the three
    requests) and the patient id, alert type, raw message and topic; no
    other caregiver's queue changes. *)
Theorem mqtt_dispatch_queues_alert cfg st topic message now f parse alertId timestamp
    pid rest ty v k :
  topic_parts topic = "alert" :: "box" :: pid :: rest ->
  In (String.concat "/" rest, ty) dispatch_table ->
  fst (getAideForPatient cfg st now f pid) = Some v -> key_of v = Some k ->
  exists st',
    mqtt_message cfg st topic message now f parse alertId timestamp = Done st' /\
    queue_of st' k =
      Some (m_set String.eqb (match queue_of st k with Some q => q | None => [] end) alertId
              (mk_payload [("type", JStr ty); ("patientId", JStr pid);
                           ("alertType", JStr (String.concat "/" rest));
                           ("message", JStr message); ("topic", JStr topic)] alertId timestamp)) /\
    (forall k', k' <> k -> queue_of st' k' = queue_of st k').
Proof.
  intros Ep Hin Hv Hk; rewrite mqtt_message_eq, Ep.
  destruct rest as [|r0 rest]; [simpl in Hin; intuition discriminate|].
  pose proof (getAide_core cfg st now f pid) as Hc.
  destruct (getAideForPatient cfg st now f pid) as [aideId st1] eqn:Eg; simpl in Hv, Hc; subst aideId.
  destruct Hc as (_ & C2 & _).
  assert (Hq : forall k', queue_of st1 k' = queue_of st k') by (intro; unfold queue_of; rewrite C2; reflexivity).
  remember (String.concat "/" (r0 :: rest)) as T eqn:ET.
  cbv beta iota zeta; cbn [andb String.eqb Ascii.eqb Bool.eqb]; rewrite Hk.
  simpl in Hin; destruct Hin as [E|[E|[E|[E|[E|[]]]]]]; injection E as <- <-; simpl;
    (eexists; split; [reflexivity|]);
    (lazymatch goal with |- context [sendToAide ?a ?b ?c ?d ?e] =>
       destruct (sendToAide_queues a b c d e) as [Q1 Q2] end;
     rewrite Q1, Hq; split; [reflexivity|intros k' Hne; rewrite Q2, Hq by exact Hne; reflexivity]).
Qed.


(** X14. [apiKeyMiddleware] lets a request through exactly when no
    [API_KEY] is configured or the [api_key] header equals it; every other
    request gets 401. *)
Theorem apiKeyMiddleware_gate cfg key :
  (apiKeyMiddleware cfg key = None <-> cfg.(API_KEY) = "" \/ key = Some cfg.(API_KEY)) /\
  (apiKeyMiddleware cfg key <> None ->
   apiKeyMiddleware cfg key = Some (mkResp 401 (err "Unauthorized: invalid API key"))).
Proof.
  unfold apiKeyMiddleware.
  destruct (String.eqb (API_KEY cfg) "") eqn:E.
  - apply String.eqb_eq in E; split; [tauto|intro N; congruence].
  - apply String.eqb_neq in E.
    destruct key as [k|]; simpl.
    + destruct (String.eqb k "") eqn:Ek; simpl.
      * apply String.eqb_eq in Ek; subst k; split; [|auto].
        split; [discriminate|intros [H|H]; [congruence|injection H as H; congruence]].
      * destruct (String.eqb k (API_KEY cfg)) eqn:Ea; simpl.
        -- apply String.eqb_eq in Ea; subst k; split; [tauto|intro N; congruence].
        -- apply String.eqb_neq in Ea; split; [|auto].
           split; [discriminate|intros [H|H]; [congruence|injection H as H; congruence]].
    + split; [|auto]; split; [discriminate|intros [H|H]; [congruence|discriminate]].
Qed.



(** X15. [POST /api/send-alert] answers 400 and changes nothing when
    [aideId], [patientId] or [alertType] is missing or falsy. *)
Theorem send_alert_requires_fields st b alertId timestamp :
  opt_truthy (get_prop b "aideId") && opt_truthy (get_prop b "patientId") &&
  opt_truthy (get_prop b "alertType") = false ->
  send_alert st b alertId timestamp =
    Some (mkResp 400 (err "aideId, patientId and alertType required"), st).
Proof.
  unfold send_alert.
  destruct (get_prop b "aideId") as [a|]; [|reflexivity].
  destruct (get_prop b "patientId") as [p|]; [|reflexivity].
  destruct (get_prop b "alertType") as [t|]; [|reflexivity].
  simpl; intro H; rewrite H; reflexivity.
Qed.




(** X18. [GET /api/patients/of/:aideId] answers 200 only when the directory
    is an array without [null] (or falsy, read as [[]]); the patients
    listed are then exactly the projections of the records whose
    [String(fk_aide_soignant)] is [aideId], in directory order.  Every
    other directory gives 500.  Only the patient cache changes. *)
Theorem patients_of_lists_matching cfg st now f aideId :
  let all := fst (fetchAllPatients cfg st now f) in
  snd (patients_of cfg st now f aideId) = snd (fetchAllPatients cfg st now f) /\
  (fst (patients_of cfg st now f aideId) = mkResp 500 (err "failed") \/
   exists l ps,
     js_or (Some all) (JArr []) = JArr l /\ Forall (fun p => p <> JNull) l /\
     fst (patients_of cfg st now f aideId) = mkResp 200 (JObj [("patients", JArr ps)]) /\
     forall x, In x ps <->
       exists p, In p l /\ js_String (get_prop p "fk_aide_soignant") = aideId /\ x = proj_patient p).
Proof.
  intro all; subst all; unfold patients_of.
  destruct (fetchAllPatients cfg st now f) as [a st1].
  destruct (js_or (Some a) (JArr [])) as [| | | | l |] eqn:Ej; simpl;
    try (split; [reflexivity|left; reflexivity]).
  destruct (existsb is_null l) eqn:En; simpl; split; auto.
  right; eexists l, _; split; [exact Ej|split; [|split; [reflexivity|]]].
  - apply Forall_forall; intros p Hp ->.
    assert (existsb is_null l = true) by (apply existsb_exists; exists JNull; auto); congruence.
  - intro x; rewrite in_map_iff; split.
    + intros (p & <- & Hp); apply filter_In in Hp as [Hp Hm]; apply String.eqb_eq in Hm; eauto.
    + intros (p & Hp & Hm & ->); exists p; split; [reflexivity|apply filter_In; split; auto].
      apply String.eqb_eq; exact Hm.
Qed.

(** X19. [POST /api/auth/login] answers 200 only for a role among
    [validRoles], a user record fetched from [API_BASE/role/id] whose
    [mot_de_passe] is truthy and strictly equal ([===]) to the password
    sent; the 200 body returns that record, stored password included. *)
Theorem login_success cfg b lk msg :
  (fst (login cfg b lk msg)).(code) = 200%Z ->
  exists id pw r u m,
    get_prop b "id" = Some id /\ js_truthy id = true /\ get_prop b "password" = Some pw /\
    get_prop b "role" = Some (JStr r) /\ In r validRoles /\
    snd (login cfg b lk msg) = Some (cfg.(API_BASE) ++ "/" ++ r ++ "/" ++ js_String_v id)%string /\
    lk = LOk (Some u) /\ get_prop u "mot_de_passe" = Some m /\ js_truthy m = true /\
    js_strict_eq m pw = true /\
    (fst (login cfg b lk msg)).(rbody) =
      JObj [("success", JBool true); ("user", u); ("role", JStr r);
            ("message", JStr "Authentification réussie")].
Proof.
  unfold login; intro Hc.
  destruct (get_prop b "id") as [id|] eqn:Ei; [|simpl in Hc; discriminate].
  destruct (get_prop b "password") as [pw|] eqn:Ep; [|simpl in Hc; discriminate].
  destruct (get_prop b "role") as [ro|] eqn:Er; [|simpl in Hc; discriminate].
  destruct (js_truthy id) eqn:Eti; [|simpl in Hc; discriminate].
  destruct (js_truthy pw) eqn:Etp; [|simpl in Hc; discriminate].
  destruct (js_truthy ro) eqn:Etr; [|simpl in Hc; discriminate].
  destruct ro as [| | |r| |]; try (simpl in Hc; discriminate).
  destruct (existsb (String.eqb r) validRoles) eqn:Ev; [|simpl in Hc; discriminate].
  apply existsb_exists in Ev as [r' [Hr' Hrr]]; apply String.eqb_eq in Hrr; subst r'.
  destruct lk as [|s|[u|]]; try (simpl in Hc; discriminate); simpl.
  destruct (js_truthy u) eqn:Eu; [|simpl in Hc; discriminate]; simpl.
  destruct (get_prop u "mot_de_passe") as [m|] eqn:Em; [|simpl in Hc; discriminate].
  destruct (js_truthy m) eqn:Etm; [|simpl in Hc; discriminate]; simpl.
  destruct (js_strict_eq m pw) eqn:Es; [|simpl in Hc; discriminate]; simpl.
  exists id, pw, r, u, m; repeat split; try assumption; reflexivity.
Qed.

(** X20. [POST /api/auth/login] fetches a user record only for a truthy
    [id] and [password] and a role among [validRoles]; the URL is
    [API_BASE/role/id] with [String(id)] inserted as is, unescaped. *)
Theorem login_fetch_only_valid cfg b lk msg url :
  snd (login cfg b lk msg) = Some url ->
  exists id pw r,
    get_prop b "id" = Some id /\ get_prop b "password" = Some pw /\
    get_prop b "role" = Some (JStr r) /\
    js_truthy id && js_truthy pw = true /\ In r validRoles /\
    url = (cfg.(API_BASE) ++ "/" ++ r ++ "/" ++ js_String_v id)%string.
Proof.
  unfold login.
  destruct (get_prop b "id") as [id|] eqn:Ei; [|discriminate].
  destruct (get_prop b "password") as [pw|] eqn:Ep; [|discriminate].
  destruct (get_prop b "role") as [ro|] eqn:Er; [|discriminate].
  destruct (js_truthy id) eqn:Eti; [|discriminate].
  destruct (js_truthy pw) eqn:Etp; [|discriminate].
  destruct (js_truthy ro) eqn:Etr; [|discriminate].
  destruct ro as [| | |r| |]; try (simpl; discriminate).
  destruct (existsb (String.eqb r) validRoles) eqn:Ev; [|discriminate].
  apply existsb_exists in Ev as [r' [Hr' Hrr]]; apply String.eqb_eq in Hrr; subst r'.
  simpl; intro E; injection E as <-.
  exists id, pw, r; repeat split; try assumption; rewrite Eti, Etp; reflexivity.
Qed.

(** X21. [POST /api/prescriptions] reads [req.params.patientId] on a route
    without parameter: whatever the body, a request it forwards always
    goes to [API_BASE/prescriptions/undefined]. *)
Theorem post_prescriptions_undefined_target cfg b f url body :
  snd (post_prescriptions cfg b f) = Some (url, body) ->
  url = (cfg.(API_BASE) ++ "/prescriptions/undefined")%string.
Proof.
  unfold post_prescriptions.
  destruct (_ || _ || _ || _); [discriminate|].
  destruct (String.eqb _ _); [discriminate|].
  simpl; intro E; injection E as <- _; reflexivity.
Qed.


Lemma nat_of_hex_digit n :
  (n < 16)%nat -> nat_of_ascii (hex_digit n) = (if Nat.ltb n 10 then 48 + n else 55 + n)%nat.
Proof.
  intro H; unfold hex_digit; apply Ascii.nat_ascii_embedding.
  destruct (Nat.ltb n 10); lia.
Qed.

Lemma hex_digit_inj a b :
  (a < 16)%nat -> (b < 16)%nat -> hex_digit a = hex_digit b -> a = b.
Proof.
  intros Ha Hb E; apply (f_equal nat_of_ascii) in E.
  rewrite !nat_of_hex_digit in E by assumption.
  destruct (Nat.ltb a 10) eqn:E1, (Nat.ltb b 10) eqn:E2;
    apply Nat.ltb_lt in E1 || apply Nat.ltb_ge in E1;
    apply Nat.ltb_lt in E2 || apply Nat.ltb_ge in E2; lia.
Qed.

Lemma encode_char_eq c1 c2 :
  hex_digit (Nat.div (nat_of_ascii c1) 16) = hex_digit (Nat.div (nat_of_ascii c2) 16) ->
  hex_digit (Nat.modulo (nat_of_ascii c1) 16) = hex_digit (Nat.modulo (nat_of_ascii c2) 16) ->
  c1 = c2.
Proof.
  intros E1 E2.
  pose proof (Ascii.nat_ascii_bounded c1) as B1; pose proof (Ascii.nat_ascii_bounded c2) as B2.
  apply hex_digit_inj in E1; [|apply Nat.Div0.div_lt_upper_bound; lia ..].
  apply hex_digit_inj in E2; [|apply Nat.mod_upper_bound; lia ..].
  rewrite <- (Ascii.ascii_nat_embedding c1), <- (Ascii.ascii_nat_embedding c2); f_equal.
  rewrite (Nat.div_mod_eq (nat_of_ascii c1) 16), (Nat.div_mod_eq (nat_of_ascii c2) 16); lia.
Qed.

(** X22. [encodeURIComponent] is injective: two different patient ids give
    two different path segments, so two different prescription URLs. *)
Theorem encodeURIComponent_injective s1 s2 :
  encodeURIComponent s1 = encodeURIComponent s2 -> s1 = s2.
Proof.
  revert s2; induction s1 as [|c1 r1 IH]; intros [|c2 r2]; simpl; auto.
  - destruct (uri_unreserved c2); discriminate.
  - destruct (uri_unreserved c1); discriminate.
  - destruct (uri_unreserved c1) eqn:U1, (uri_unreserved c2) eqn:U2; intro E.
    + injection E as -> E; f_equal; auto.
    + injection E as -> _; vm_compute in U1; discriminate.
    + injection E as <- _; vm_compute in U2; discriminate.
    + injection E as E1 E2 E; f_equal; [apply encode_char_eq; assumption|auto].
Qed.

Lemma encodeURIComponent_chars s c :
  In c (list_ascii_of_string (encodeURIComponent s)) ->
  uri_unreserved c = true \/ c = "%"%char \/ exists d, (d < 16)%nat /\ c = hex_digit d.
Proof.
  induction s as [|c0 r IH]; intro Hc; [destruct Hc|].
  cbn [encodeURIComponent] in Hc.
  pose proof (Ascii.nat_ascii_bounded c0).
  destruct (uri_unreserved c0) eqn:U; cbn [list_ascii_of_string In] in Hc.
  - destruct Hc as [<-|Hc]; auto.
  - destruct Hc as [<-|[<-|[<-|Hc]]]; auto.
    + right; right; eexists; split; [|reflexivity]; apply Nat.Div0.div_lt_upper_bound; lia.
    + right; right; eexists; split; [|reflexivity]; apply Nat.mod_upper_bound; lia.
Qed.

(** X23. [GET /api/prescriptions/:patientId] fetches
    [API_BASE/prescriptions/] followed by [encodeURIComponent(pid)], a
    segment without ['/'], ['?'] or ['#']: whatever the patient id, the
    request stays on that path of the prescriptions resource. *)
Theorem get_prescriptions_target cfg pid f url :
  snd (get_prescriptions cfg pid f) = Some url ->
  exists seg, url = (cfg.(API_BASE) ++ "/prescriptions/" ++ seg)%string /\
    seg = encodeURIComponent pid /\
    forall c, In c (list_ascii_of_string seg) -> ~ In c ["/"; "?"; "#"]%char.
Proof.
  unfold get_prescriptions; destruct (String.eqb _ _); [discriminate|].
  simpl; intro E; injection E as <-; eexists; split; [reflexivity|split; [reflexivity|]].
  intros c Hc Hin; apply encodeURIComponent_chars in Hc as [U|[->|(d & Hd & ->)]].
  - simpl in Hin; destruct Hin as [<-|[<-|[<-|[]]]]; discriminate.
  - simpl in Hin; destruct Hin as [E|[E|[E|[]]]]; discriminate.
  - simpl in Hin; destruct Hin as [E|[E|[E|[]]]]; apply (f_equal nat_of_ascii) in E;
      rewrite nat_of_hex_digit in E by exact Hd;
      destruct (Nat.ltb d 10) eqn:L;
      first [apply Nat.ltb_lt in L | apply Nat.ltb_ge in L]; cbv in E; lia.
Qed.

(** ** Witnesses of the handler properties *)

Lemma refetched_directory_cache_witness :
  fst (fetchAllPatients cfg_ex init 40000 (PFJson (Some patients_ex) 40000)) = patients_ex /\
  fetchAllPatients cfg_ex (snd (fetchAllPatients cfg_ex init 40000 (PFJson (Some patients_ex) 40000)))
    50000 PFThrows =
    (patients_ex, snd (fetchAllPatients cfg_ex init 40000 (PFJson (Some patients_ex) 40000))).
Proof.
  apply (refetched_directory_cache cfg_ex init 40000 patients_ex 40000 50000 PFThrows);
    [discriminate|reflexivity].
Defined.


Lemma getAideForPatient_null_record_witness :
  let st := set_cache init (JArr [JNull; JObj [("id_patient", JNum 12); ("fk_aide_soignant", JStr "B")]]) 0 in
  fst (getAideForPatient cfg_ex st 1000 PFThrows "12") = None.
Proof.
  apply (getAideForPatient_null_record cfg_ex _ 1000 PFThrows "12" []
           [JObj [("id_patient", JNum 12); ("fk_aide_soignant", JStr "B")]]);
    [reflexivity|constructor].
Defined.



Lemma mqtt_dispatch_queues_alert_witness :
  exists st',
    mqtt_message cfg_ex st_cached "alert/box/12/seuilmedoc" "m" 1000 PFThrows (fun _ => None)
      "a1" "t0" = Done st' /\
    queue_of st' (KStr "B") =
      Some (m_set String.eqb [] "a1"
              (mk_payload [("type", JStr "warning"); ("patientId", JStr "12");
                           ("alertType", JStr "seuilmedoc"); ("message", JStr "m");
                           ("topic", JStr "alert/box/12/seuilmedoc")] "a1" "t0")) /\
    (forall k', k' <> KStr "B" -> queue_of st' k' = queue_of st_cached k').
Proof.
  apply (mqtt_dispatch_queues_alert cfg_ex st_cached "alert/box/12/seuilmedoc" "m" 1000 PFThrows
           (fun _ => None) "a1" "t0" "12" ["seuilmedoc"] "warning" (JStr "B") (KStr "B"));
    [vm_compute; reflexivity | simpl; auto | vm_compute; reflexivity | reflexivity].
Defined.

Lemma apiKeyMiddleware_gate_witness :
  apiKeyMiddleware cfg_ex (Some "supercleAPI") = None /\
  apiKeyMiddleware cfg_ex (Some "other") = Some (mkResp 401 (err "Unauthorized: invalid API key")).
Proof.
  split.
  - apply (proj1 (apiKeyMiddleware_gate cfg_ex (Some "supercleAPI"))); right; reflexivity.
  - apply (proj2 (apiKeyMiddleware_gate cfg_ex (Some "other"))); discriminate.
Defined.

Lemma send_alert_requires_fields_witness :
  send_alert init (JObj [("aideId", JStr "A"); ("patientId", JStr "12")]) "a1" "t0" =
    Some (mkResp 400 (err "aideId, patientId and alertType required"), init).
Proof. apply send_alert_requires_fields; reflexivity. Defined.



Lemma patients_of_lists_matching_witness :
  snd (patients_of cfg_ex st_cached 1000 PFThrows "B") = st_cached /\
  (fst (patients_of cfg_ex st_cached 1000 PFThrows "B") = mkResp 500 (err "failed") \/
   exists l ps,
     js_or (Some patients_ex) (JArr []) = JArr l /\ Forall (fun p => p <> JNull) l /\
     fst (patients_of cfg_ex st_cached 1000 PFThrows "B") = mkResp 200 (JObj [("patients", JArr ps)]) /\
     forall x, In x ps <->
       exists p, In p l /\ js_String (get_prop p "fk_aide_soignant") = "B" /\ x = proj_patient p).
Proof. exact (patients_of_lists_matching cfg_ex st_cached 1000 PFThrows "B"). Defined.

Definition login_body_ex : JVal :=
  JObj [("id", JStr "A"); ("password", JStr "pw"); ("role", JStr "aidesoignants")].

Lemma login_success_witness :
  exists id pw r u m,
    get_prop login_body_ex "id" = Some id /\ js_truthy id = true /\
    get_prop login_body_ex "password" = Some pw /\
    get_prop login_body_ex "role" = Some (JStr r) /\ In r validRoles /\
    snd (login cfg_ex login_body_ex (cred_ex "pw") "e") =
      Some (cfg_ex.(API_BASE) ++ "/" ++ r ++ "/" ++ js_String_v id)%string /\
    cred_ex "pw" = LOk (Some u) /\ get_prop u "mot_de_passe" = Some m /\ js_truthy m = true /\
    js_strict_eq m pw = true /\
    (fst (login cfg_ex login_body_ex (cred_ex "pw") "e")).(rbody) =
      JObj [("success", JBool true); ("user", u); ("role", JStr r);
            ("message", JStr "Authentification réussie")].
Proof. apply login_success; reflexivity. Defined.

Lemma login_fetch_only_valid_witness :
  exists id pw r,
    get_prop login_body_ex "id" = Some id /\ get_prop login_body_ex "password" = Some pw /\
    get_prop login_body_ex "role" = Some (JStr r) /\
    js_truthy id && js_truthy pw = true /\ In r validRoles /\
    "https://api.fake-database.com/aidesoignants/A" =
      (cfg_ex.(API_BASE) ++ "/" ++ r ++ "/" ++ js_String_v id)%string.
Proof. apply (login_fetch_only_valid cfg_ex login_body_ex (cred_ex "x") "e"); reflexivity. Defined.

Lemma post_prescriptions_undefined_target_witness :
  "https://api.fake-database.com/prescriptions/undefined" =
    (cfg_ex.(API_BASE) ++ "/prescriptions/undefined")%string.
Proof.
  apply (post_prescriptions_undefined_target cfg_ex
           (JObj [("nom_medoc", JStr "doli"); ("quantite_totale", JNum 10);
                  ("quantite_restante", JNum 4); ("compartiment", JNum 2)])
           (FThrows "down") _
           (JObj [("nom_medoc", JStr "doli"); ("quantite_totale", JNum 10);
                  ("quantite_restante", JNum 4); ("compartiment", JNum 2)])).
  reflexivity.
Defined.

Lemma encodeURIComponent_injective_witness : "12/a b" = "12/a b".
Proof. apply encodeURIComponent_injective; reflexivity. Defined.

Lemma get_prescriptions_target_witness :
  exists seg, "https://api.fake-database.com/prescriptions/12%2F..%3Fx%23y" =
                (cfg_ex.(API_BASE) ++ "/prescriptions/" ++ seg)%string /\
    seg = encodeURIComponent "12/..?x#y" /\
    forall c, In c (list_ascii_of_string seg) -> ~ In c ["/"; "?"; "#"]%char.
Proof. apply (get_prescriptions_target cfg_ex "12/..?x#y" (FThrows "down")); reflexivity. Defined.

(** ** Ids of [generateUniqueId] *)

Section UniqueIds.
Local Open Scope string_scope.

Fixpoint sdrop (n : nat) (s : string) : string :=
  match n, s with
  | O, _ => s
  | S n', String _ r => sdrop n' r
  | S _, EmptyString => EmptyString
  end.

Lemma substring_all n m s : (String.length s <= n + m)%nat -> substring n m s = sdrop n s.
Proof.
  revert m s; induction n as [|n IH]; intros m s H.
  - revert m H; induction s as [|c r IHs]; intros m H; destruct m; simpl in *; auto; try lia.
    f_equal; apply IHs; lia.
  - destruct s as [|c r]; simpl in *; [destruct m; reflexivity|apply IH; lia].
Qed.

Lemma sdrop_app n s t : (n <= String.length s)%nat -> sdrop n (s ++ t) = sdrop n s ++ t.
Proof.
  revert s; induction n as [|n IH]; intros s H; [reflexivity|].
  destruct s as [|c r]; simpl in *; [lia|apply IH; lia].
Qed.

Lemma length_append s t : String.length (s ++ t) = (String.length s + String.length t)%nat.
Proof. induction s; simpl; auto. Qed.

Lemma slice_last_snoc k s c :
  js_slice_last (S k) (s ++ String c "") = js_slice_last k s ++ String c "".
Proof.
  unfold js_slice_last; rewrite length_append; simpl.
  rewrite !substring_all by (rewrite ?length_append; simpl; lia).
  replace (String.length s + 1 - S k)%nat with (String.length s - k)%nat by lia.
  apply sdrop_app; lia.
Qed.

Definition dec_digit (d : Z) : ascii := ascii_of_nat (48 + Z.to_nat d).

Fixpoint low_digits (k : nat) (n : Z) : string :=
  match k with
  | O => ""
  | S k' => low_digits k' (n / 10) ++ String (dec_digit (n mod 10)) ""
  end.

Lemma str_append_assoc (a b c : string) : (a ++ b) ++ c = a ++ (b ++ c).
Proof. induction a; simpl; congruence. Qed.

Lemma pos_digits_acc f p acc : pos_digits f p acc = pos_digits f p "" ++ acc.
Proof.
  revert p acc; induction f as [|f IH]; intros p acc; [reflexivity|]; simpl.
  destruct (Zpos p / 10)%Z eqn:E; try reflexivity.
  rewrite IH, (IH _ (String _ "")); rewrite str_append_assoc; reflexivity.
Qed.

Lemma size_nat_pos p : (1 <= Pos.size_nat p)%nat.
Proof. destruct p; simpl; lia. Qed.

Lemma size_div10 p q : (Zpos p / 10 = Zpos q)%Z -> (Pos.size_nat q < Pos.size_nat p)%nat.
Proof.
  intro E.
  assert (H : (Zpos (xO q) < Zpos p)%Z).
  { pose proof (Z.mul_div_le (Zpos p) 10 ltac:(lia)) as M; rewrite E in M.
    rewrite Pos2Z.inj_xO; lia. }
  assert (H2 : (xO q < p)%positive) by exact H.
  apply Pos.size_nat_monotone in H2; simpl in H2; lia.
Qed.

Lemma pos_digits_fuel f f' p acc :
  (Pos.size_nat p <= f)%nat -> (Pos.size_nat p <= f')%nat ->
  pos_digits f p acc = pos_digits f' p acc.
Proof.
  revert f' p acc; induction f as [|f IH]; intros f' p acc H H'.
  - pose proof (size_nat_pos p); lia.
  - destruct f' as [|f']; [pose proof (size_nat_pos p); lia|]; simpl.
    destruct (Zpos p / 10)%Z as [|q|q] eqn:E; try reflexivity.
    apply size_div10 in E; apply IH; lia.
Qed.

Lemma dec_snoc n :
  (10 <= n)%Z -> z_to_dec n = z_to_dec (n / 10) ++ String (dec_digit (n mod 10)) "".
Proof.
  intro H; destruct n as [|p|p]; try lia; unfold z_to_dec.
  destruct (Pos.size_nat p) as [|m] eqn:Es; [pose proof (size_nat_pos p); lia|].
  simpl; destruct (Zpos p / 10)%Z as [|q|q] eqn:E.
  - pose proof (Z.mul_div_le (Zpos p) 10 ltac:(lia)) as M; pose proof (Z.mod_pos_bound (Zpos p) 10 ltac:(lia)).
    pose proof (Z.div_mod (Zpos p) 10 ltac:(lia)); lia.
  - rewrite pos_digits_acc; f_equal.
    apply pos_digits_fuel; [|lia]; apply size_div10 in E; lia.
  - pose proof (Z.div_pos (Zpos p) 10 ltac:(lia) ltac:(lia)); lia.
Qed.

Lemma dec_small n : (1 <= n <= 9)%Z -> z_to_dec n = String (dec_digit n) "".
Proof.
  intro H; assert (n = 1 \/ n = 2 \/ n = 3 \/ n = 4 \/ n = 5 \/ n = 6 \/ n = 7 \/ n = 8 \/ n = 9)%Z
    as Hn by lia.
  repeat destruct Hn as [->|Hn]; try reflexivity; subst; reflexivity.
Qed.

Lemma substring_zero n s : substring n 0 s = "".
Proof. revert s; induction n; intros [|c r]; simpl; auto. Qed.

Lemma pow10_succ k : (10 ^ Z.of_nat (S k) = 10 * 10 ^ Z.of_nat k)%Z.
Proof. rewrite Nat2Z.inj_succ, Z.pow_succ_r by lia; reflexivity. Qed.

Lemma pow10_pos k : (1 <= 10 ^ Z.of_nat k)%Z.
Proof. induction k; [reflexivity|rewrite pow10_succ; lia]. Qed.

Lemma slice_dec k n :
  (1 <= n)%Z -> (10 ^ Z.of_nat k <= 10 * n)%Z -> js_slice_last k (z_to_dec n) = low_digits k n.
Proof.
  revert n; induction k as [|k IH]; intros n H1 H2.
  - apply substring_zero.
  - pose proof (Z.mod_pos_bound n 10 ltac:(lia)); pose proof (Z.div_mod n 10 ltac:(lia)).
    destruct (Z.le_gt_cases 10 n) as [Hn|Hn].
    + rewrite dec_snoc by exact Hn; rewrite slice_last_snoc; cbn [low_digits]; f_equal.
      apply IH; [lia|].
      rewrite pow10_succ in H2; destruct k as [|k]; [change (10 ^ Z.of_nat 0)%Z with 1%Z; lia|].
      rewrite pow10_succ in H2 |- *; pose proof (pow10_pos k); lia.
    + destruct k as [|k].
      * rewrite dec_small by lia; cbn [low_digits].
        rewrite Z.mod_small by lia; reflexivity.
      * rewrite !pow10_succ in H2; pose proof (pow10_pos k); lia.
Qed.

Lemma low_digits_period k n m : low_digits k (n + m * 10 ^ Z.of_nat k) = low_digits k n.
Proof.
  revert n m; induction k as [|k IH]; intros n m; [reflexivity|]; cbn [low_digits].
  replace (n + m * 10 ^ Z.of_nat (S k))%Z with (n + (m * 10 ^ Z.of_nat k) * 10)%Z
    by (rewrite pow10_succ; ring).
  rewrite Z.mod_add, Z.div_add by lia; rewrite IH; reflexivity.
Qed.

(** X24. Ids repeat: [generateUniqueId] called at two times a multiple of
    1 000 000 ms apart (about 16 min 40 s) with the same random draw
    returns the same id, since only the last six digits of [Date.now()]
    are kept. *)
Theorem generateUniqueId_repeats role now random m :
  (100000 <= now)%Z -> (0 <= m)%Z ->
  generateUniqueId role (now + m * 1000000) random = generateUniqueId role now random.
Proof.
  intros Hn Hm; unfold generateUniqueId.
  rewrite !slice_dec by lia.
  change 1000000%Z with (10 ^ Z.of_nat 6)%Z; rewrite low_digits_period; reflexivity.
Qed.

Lemma generateUniqueId_repeats_witness :
  generateUniqueId "aidesoignants" (1760000123456 + 3 * 1000000) 42 =
    generateUniqueId "aidesoignants" 1760000123456 42.
Proof. apply generateUniqueId_repeats; lia. Defined.

End UniqueIds.
